(** * DopaLAN match registry (server.js): a shallow embedding and its properties

    The server keeps two in-memory maps, [matches] and [rateLimit], and serves
    six routes behind one rate-limiting middleware.  Each handler is embedded
    as a function from the state and the values the handler reads from its
    environment (the request body, every [Date.now()] reading, the value of
    [crypto.randomUUID()]) to the new state and the response.

    Scope of the model.
    - [req.body] is a JSON object.  Its property values are the JSON
      primitives: an absent property ([undefined]), [null], booleans, numbers
      and strings.  Arrays and nested objects are not modelled.
    - Numbers are doubles.  [Num z] is the Number nearest to the integer [z]:
      [z] itself below 2^53, and beyond it the double that [z] rounds to, an
      infinity from 2^1024 on; [-0] is identified with [0].  Every number the
      server computes is of this kind (a timestamp, a difference of
      timestamps, a count or a [parseInt] result).  A number of a request
      that has a fraction is kept as the text [Number::toString] prints for
      it: the server stores such a number or converts it to text, and does
      no arithmetic on it.
    - Strings are sequences of code units below 256.
    - Console output, the [message] texts that carry emoji and
      [process.uptime()] are left out.  Of [cors()] and [express.json] the
      model keeps which requests they answer themselves, ahead of the
      limiter. *)

From Stdlib Require Import Ascii String.
From stdpp Require Import gmap strings list sorting pretty.

Local Open Scope string_scope.
Local Open Scope Z_scope.

(** ** The JavaScript values and built-ins the server uses *)

Module JS.

(** [Num z] is the Number value for the integer [z] (the specification's
    𝔽(z)): [z] itself when a double holds it exactly, as it does every integer
    below 2^53 in magnitude, and the nearest double otherwise.  [Other text]
    is a Number with a fractional part, or an infinity, identified by the text
    [Number::toString] prints for it ([2.5], [1e-7], [Infinity]); it is never
    zero. *)
Inductive jsnum : Type :=
| Num (z : Z)
| NaN
| Other (text : string).

Inductive jsval : Type :=
| undefined
| null
| JBool (b : bool)
| JNum (n : jsnum)
| JStr (s : string).

#[global] Instance jsnum_eq_dec : EqDecision jsnum.
Proof. solve_decision. Defined.

#[global] Instance jsval_eq_dec : EqDecision jsval.
Proof. solve_decision. Defined.

(** Abrupt completion: the only exception the handlers can raise. *)
Inductive completion (A : Type) : Type :=
| Normal (a : A)
| ThrowTypeError.
Arguments Normal {A} a.
Arguments ThrowTypeError {A}.

Definition bind {A B} (c : completion A) (k : A → completion B) : completion B :=
  match c with
  | Normal a => k a
  | ThrowTypeError => ThrowTypeError
  end.

(** [ToBoolean]. *)
Definition truthy (v : jsval) : bool :=
  match v with
  | undefined | null => false
  | JBool b => b
  | JNum (Num z) => negb (z =? 0)
  | JNum NaN => false
  | JNum (Other _) => true
  | JStr s => negb (String.eqb s "")
  end.

(** The double nearest to an integer: round to nearest, ties to even, on a
    significand of 53 bits.  [None] is an overflow, which gives the infinity
    of the integer's sign. *)
Definition nearest_double (n : Z) : option Z :=
  let a := Z.abs n in
  if a <? 2 ^ 53 then Some n else
  let e := Z.log2 a - 52 in
  let q := a / 2 ^ e in
  let r := a mod 2 ^ e in
  let half := 2 ^ (e - 1) in
  let q' := if (half <? r) || ((r =? half) && Z.odd q) then q + 1 else q in
  let x := q' * 2 ^ e in
  if 2 ^ 1024 <=? x then None else Some (Z.sgn n * x).

Definition Number_of_Z (n : Z) : jsnum :=
  match nearest_double n with
  | Some x => Num x
  | None => Other (if n <? 0 then "-Infinity" else "Infinity")
  end.

(** [Number::toString] (radix 10) prints the decimal with the fewest
    significant digits that reads back as the same double; of two such
    decimals it takes the one closer to the double, and the even one when
    they are equally close.  For a double [x] of [n] digits that is an
    integer, the candidates with [k] significant digits are the two multiples
    of 10^(n-k) around [x]. *)
Fixpoint shortest_decimal_go (fuel : nat) (x n k : Z) : Z :=
  match fuel with
  | O => x
  | S fuel' =>
      let p := 10 ^ (n - k) in
      let lo := x / p * p in
      let hi := lo + p in
      let ok v := bool_decide (nearest_double v = Some x) in
      match ok lo, ok hi with
      | true, true =>
          if x - lo <? hi - x then lo
          else if hi - x <? x - lo then hi
          else if Z.even (lo / p) then lo else hi
      | true, false => lo
      | false, true => hi
      | false, false => shortest_decimal_go fuel' x n (k + 1)
      end
  end.

Definition shortest_decimal (x : Z) : Z :=
  shortest_decimal_go 17 x (Z.of_nat (String.length (pretty x))) 1.

Fixpoint strip_zeros (s : string) : string :=
  match s with
  | EmptyString => EmptyString
  | String c s' =>
      match strip_zeros s' with
      | EmptyString => if Ascii.eqb c "0" then EmptyString else String c EmptyString
      | t => String c t
      end
  end.

(** A decimal of up to 21 digits is printed in full, a longer one as
    [d.ddde+N]. *)
Definition decimal_text (v : Z) : string :=
  let D := pretty v in
  let n := Z.of_nat (String.length D) in
  if n <=? 21 then D else
  match strip_zeros D with
  | EmptyString => D
  | String d EmptyString => String d ("e+" +:+ pretty (n - 1))
  | String d rest => String d ("." +:+ rest +:+ "e+" +:+ pretty (n - 1))
  end.

(** [Number::toString] (radix 10) and [ToString]. *)
Definition Number_toString (n : jsnum) : string :=
  match n with
  | Num z =>
      match nearest_double z with
      | Some x =>
          if Z.abs x <? 2 ^ 53 then pretty x
          else (if x <? 0 then "-" else "") +:+ decimal_text (shortest_decimal (Z.abs x))
      | None => if z <? 0 then "-Infinity" else "Infinity"
      end
  | NaN => "NaN"
  | Other text => text
  end.

Definition ToString (v : jsval) : string :=
  match v with
  | undefined => "undefined"
  | null => "null"
  | JBool true => "true"
  | JBool false => "false"
  | JNum n => Number_toString n
  | JStr s => s
  end.

(** White space and line terminators among the code units below 256:
    TAB, LF, VT, FF, CR, SP and NBSP. *)
Definition isWhiteSpace (c : ascii) : bool :=
  let n := Z.of_N (N_of_ascii c) in
  ((9 <=? n) && (n <=? 13)) || (n =? 32) || (n =? 160).

Fixpoint trimStart (s : string) : string :=
  match s with
  | EmptyString => EmptyString
  | String c s' => if isWhiteSpace c then trimStart s' else s
  end.

Definition trimEnd (s : string) : string :=
  String.rev (trimStart (String.rev s)).

(** [String.prototype.trim]. *)
Definition trim (s : string) : string := trimEnd (trimStart s).

(** [v.trim()]: only strings have the method; reading it off [undefined] or
    [null] and calling the missing method of a boolean or a number both raise
    a TypeError. *)
Definition call_trim (v : jsval) : completion string :=
  match v with
  | JStr s => Normal (trim s)
  | _ => ThrowTypeError
  end.

(** [v?.trim()]: the optional chain short-circuits to [undefined] on
    [undefined] and [null]. *)
Definition optional_trim (v : jsval) : completion jsval :=
  match v with
  | undefined | null => Normal undefined
  | _ => bind (call_trim v) (λ s, Normal (JStr s))
  end.

(** The value of a digit or letter as a numeral digit. *)
Definition digit_value (c : ascii) : option Z :=
  let n := Z.of_N (N_of_ascii c) in
  if (48 <=? n) && (n <=? 57) then Some (n - 48)
  else if (97 <=? n) && (n <=? 122) then Some (n - 87)
  else if (65 <=? n) && (n <=? 90) then Some (n - 55)
  else None.

Definition radix_digit (R : Z) (c : ascii) : option Z :=
  match digit_value c with
  | Some d => if d <? R then Some d else None
  | None => None
  end.

(** The value of the longest prefix of radix-[R] digits; [None] when that
    prefix is empty. *)
Fixpoint parse_digits (R : Z) (s : string) (acc : option Z) : option Z :=
  match s with
  | EmptyString => acc
  | String c s' =>
      match radix_digit R c with
      | Some d => parse_digits R s' (Some (default 0 acc * R + d))
      | None => acc
      end
  end.

(** [parseInt(v)] with no radix argument: leading white space is skipped,
    then an optional sign, then an optional [0x] / [0X] prefix selects
    radix 16.  [mathInt] is the signed integer that the digits denote, [None]
    when there is no digit; [parseInt] returns the Number value for it.
    [ToString] never throws on the primitive values of [jsval]. *)
Definition mathInt (v : jsval) : option Z :=
  let S0 := trimStart (ToString v) in
  let '(sign, S1) :=
    match S0 with
    | String "-" r => (-1, r)
    | String "+" r => (1, r)
    | _ => (1, S0)
    end in
  let '(R, S2) :=
    match S1 with
    | String "0" (String "x" r) => (16, r)
    | String "0" (String "X" r) => (16, r)
    | _ => (10, S1)
    end in
  match parse_digits R S2 None with
  | Some n => Some (sign * n)
  | None => None
  end.

Definition parseInt (v : jsval) : jsnum :=
  match mathInt v with
  | Some n => Number_of_Z n
  | None => NaN
  end.

(** [StringToNumber] on the integer fragment of its grammar: the empty or
    blank string is 0, a signed run of decimal digits or an unsigned
    hexadecimal literal is its value.  Literals with a fraction, an exponent,
    [Infinity] or a binary / octal prefix are not read; no string reaches an
    arithmetic operator in server.js. *)
Definition all_digits (R : Z) (s : string) : bool :=
  forallb (λ c, bool_decide (is_Some (radix_digit R c))) (list_ascii_of_string s).

Definition StringToNumber (s : string) : jsnum :=
  let t := trim s in
  match t with
  | EmptyString => Num 0
  | String "0" (String "x" r) | String "0" (String "X" r) =>
      if all_digits 16 r then from_option Num NaN (parse_digits 16 r None) else NaN
  | String "-" r =>
      if all_digits 10 r then from_option (λ n, Num (- n)) NaN (parse_digits 10 r None) else NaN
  | String "+" r =>
      if all_digits 10 r then from_option Num NaN (parse_digits 10 r None) else NaN
  | _ =>
      if all_digits 10 t then from_option Num NaN (parse_digits 10 t None) else NaN
  end.

(** [ToNumber]. *)
Definition ToNumber (v : jsval) : jsnum :=
  match v with
  | undefined => NaN
  | null => Num 0
  | JBool b => Num (if b then 1 else 0)
  | JNum n => n
  | JStr s => StringToNumber s
  end.

(** The binary [-] operator, on the integers and [NaN]: the difference of
    two doubles is the double nearest to the exact difference.  The server
    subtracts timestamps and, in the comparator of the list handler, two
    property reads; no number with a fraction reaches the operator. *)
Definition minus (a b : jsval) : jsnum :=
  match ToNumber a, ToNumber b with
  | Num x, Num y => Num (x - y)
  | _, _ => NaN
  end.

(** [Array.prototype.sort(comparefn)].  The comparator's result [v] orders
    [x] before [y] when [v < 0] and [y] before [x] when [v > 0]; a [NaN]
    result is read as [+0].  The sort is stable, so elements that compare
    equal keep their relative order (for a comparator that is not a
    consistent ordering the language leaves the result open; the two
    comparators met here, a constant and a difference of numbers, are
    consistent). *)
Definition SortCompare_gt (v : jsnum) : bool :=
  match v with
  | Num z => 0 <? z
  | NaN => false
  | Other (String "-" _) => false
  | Other _ => true
  end.

Section Array.
Context {A : Type}.

Fixpoint sort_insert (comparefn : A → A → jsnum) (x : A) (l : list A) : list A :=
  match l with
  | [] => [x]
  | y :: l' =>
      if SortCompare_gt (comparefn x y) then y :: sort_insert comparefn x l'
      else x :: l
  end.

Fixpoint sort (comparefn : A → A → jsnum) (l : list A) : list A :=
  match l with
  | [] => []
  | x :: l' => sort_insert comparefn x (sort comparefn l')
  end.

(** [arr.slice(0, n)]. *)
Definition slice0 (n : nat) (l : list A) : list A := take n l.
End Array.

(** A [Map] with string keys, in insertion order: [Map.prototype.values()]
    iterates the entries in the order their keys were first inserted, and
    [set] on a present key keeps the key's position. *)
Section Map.
Context {V : Type}.

Definition Map := list (string * V).

Fixpoint Map_get (m : Map) (k : string) : option V :=
  match m with
  | [] => None
  | (k', v) :: m' => if decide (k' = k) then Some v else Map_get m' k
  end.

Definition Map_has (m : Map) (k : string) : bool := bool_decide (is_Some (Map_get m k)).

Fixpoint Map_set (m : Map) (k : string) (v : V) : Map :=
  match m with
  | [] => [(k, v)]
  | (k', v') :: m' =>
      if decide (k' = k) then (k, v) :: m' else (k', v') :: Map_set m' k v
  end.

Fixpoint Map_remove (m : Map) (k : string) : Map :=
  match m with
  | [] => []
  | (k', v) :: m' => if decide (k' = k) then m' else (k', v) :: Map_remove m' k
  end.

(** [Map.prototype.delete] removes the entry and returns whether the key was
    present. *)
Definition Map_delete (m : Map) (k : string) : Map * bool :=
  (Map_remove m k, Map_has m k).

Definition Map_values (m : Map) : list V := m.*2.
Definition Map_keys (m : Map) : list string := m.*1.
Definition Map_size (m : Map) : nat := length m.
End Map.
Arguments Map : clear implicits.

(** Looking up a key that came from a request body: the keys of [matches] are
    strings, and under SameValueZero no other kind of value equals a string. *)
Definition key_of (v : jsval) : option string :=
  match v with
  | JStr s => Some s
  | _ => None
  end.

End JS.
Import JS.

#[global] Instance completion_ret : MRet completion := λ A a, Normal a.
#[global] Instance completion_bind : MBind completion := λ A B k c, bind c k.

(** ** server.js: the data *)

(** The object stored in [matches] by the register handler. *)
Record Match : Type := {
  m_id : string;
  m_hostName : string;
  m_proxyAddress : string;
  m_proxyPort : jsnum;
  m_map : string;
  m_maxPlayers : jsval;
  m_playersConnected : Z;
  m_createdAt : Z;
  m_lastHeartbeat : Z
}.

(** [match.lastHeartbeat = t]. *)
Definition set_lastHeartbeat (t : Z) (m : Match) : Match :=
  {| m_id := m_id m;
     m_hostName := m_hostName m;
     m_proxyAddress := m_proxyAddress m;
     m_proxyPort := m_proxyPort m;
     m_map := m_map m;
     m_maxPlayers := m_maxPlayers m;
     m_playersConnected := m_playersConnected m;
     m_createdAt := m_createdAt m;
     m_lastHeartbeat := t |}.

(** The object literal built by the [.map] callback of the list handler. *)
Record MatchView : Type := {
  v_id : string;
  v_hostName : string;
  v_proxyAddress : string;
  v_proxyPort : jsnum;
  v_proxyUrl : string;
  v_map : string;
  v_maxPlayers : jsval;
  v_playersConnected : Z;
  v_age : Z;
  v_isRecent : bool
}.

(** Reading a property of such an object by name; a name the literal does not
    define reads as [undefined]. *)
Definition MatchView_get (v : MatchView) (p : string) : jsval :=
  if decide (p = "id") then JStr (v_id v)
  else if decide (p = "hostName") then JStr (v_hostName v)
  else if decide (p = "proxyAddress") then JStr (v_proxyAddress v)
  else if decide (p = "proxyPort") then JNum (v_proxyPort v)
  else if decide (p = "proxyUrl") then JStr (v_proxyUrl v)
  else if decide (p = "map") then JStr (v_map v)
  else if decide (p = "maxPlayers") then v_maxPlayers v
  else if decide (p = "playersConnected") then JNum (Num (v_playersConnected v))
  else if decide (p = "age") then JNum (Num (v_age v))
  else if decide (p = "isRecent") then JBool (v_isRecent v)
  else undefined.

(** [req.body] of the register route, after destructuring; an absent
    property is [undefined]. *)
Record RegisterBody : Type := {
  body_hostName : jsval;
  body_proxyAddress : jsval;
  body_proxyPort : jsval;
  body_map : jsval;
  body_maxPlayers : jsval
}.

(** Response bodies, one constructor per [res.json] shape; [NoJson] is a
    response that no handler of server.js wrote. *)
Inductive Json : Type :=
| ErrorJson (error : string)
| RegisterJson (id : string) (proxyUrl : string)
| HeartbeatJson
| UnregisterJson
| ListJson (matches : list MatchView) (total : nat) (timestamp : Z)
| HealthJson (matches : nat) (active : nat)
| StatsJson (totalMatchesEver : nat) (activeMatches : nat)
| NoJson.

Record Response : Type := {
  status : Z;
  json : Json
}.

Definition respond (code : Z) (j : Json) : Response := {| status := code; json := j |}.

(** The error kinds of the specification are the status codes of the
    responses. *)
Definition ValidationError (r : Response) : Prop := status r = 400.
Definition NotFoundError (r : Response) : Prop := status r = 404.
Definition RateLimitExceeded (r : Response) : Prop := status r = 429.
Definition Success (r : Response) : Prop := status r = 200.

(** ** server.js: the rate-limiting middleware (lines 19-39)

    [rateLimit] is a [Map] from keys to arrays of timestamps; its iteration
    order is never observed, so it is a finite map here.  The result is the
    new map and [Some] 429 response, or [None] when [next()] is called. *)
Definition rateLimiter (rateLimit : gmap string (list Z)) (ip path : string) (now : Z)
  : gmap string (list Z) * option Response :=
  let key := ip +:+ ":" +:+ path in
  let rateLimit :=
    if decide (is_Some (rateLimit !! key)) then rateLimit else <[key := []]> rateLimit in
  let requests := default [] (rateLimit !! key) in
  (* [push] mutates the array the map holds *)
  let requests := (requests ++ [now])%list in
  let rateLimit := <[key := requests]> rateLimit in
  let recent := filter (λ t, now - t < 60000) requests in
  let rateLimit := <[key := recent]> rateLimit in
  (* recent.length > 15 *)
  if (15 <? length recent)%nat
  then (rateLimit, Some (respond 429 (ErrorJson "Rate limit exceeded. Slow down!")))
  else (rateLimit, None).

(** ** server.js: the register handler (lines 42-72) *)

(** The guard [!hostName?.trim() || !proxyAddress?.trim() || !proxyPort ||
    !map?.trim()], evaluated left to right with short-circuiting. *)
Definition register_guard (b : RegisterBody) : completion bool :=
  h ← optional_trim (body_hostName b);
  if negb (truthy h) then mret true else
  a ← optional_trim (body_proxyAddress b);
  if negb (truthy a) then mret true else
  if negb (truthy (body_proxyPort b)) then mret true else
  m ← optional_trim (body_map b);
  mret (negb (truthy m)).

(** The destructuring default [maxPlayers = 8] applies to [undefined] only. *)
Definition maxPlayers_default (v : jsval) : jsval :=
  match v with
  | undefined => JNum (Num 8)
  | _ => v
  end.

(** The body of the handler up to [matches.set]: [None] is the 400 branch.
    [uuid] is the value of [crypto.randomUUID()], [t_created] and
    [t_heartbeat] the two successive [Date.now()] readings. *)
Definition register_match (b : RegisterBody) (uuid : string) (t_created t_heartbeat : Z)
  : completion (option Match) :=
  let maxPlayers := maxPlayers_default (body_maxPlayers b) in
  missing ← register_guard b;
  if missing : bool then mret None else
  hostName ← call_trim (body_hostName b);
  proxyAddress ← call_trim (body_proxyAddress b);
  let proxyPort := parseInt (body_proxyPort b) in
  map ← call_trim (body_map b);
  mret (Some {| m_id := uuid;
                m_hostName := hostName;
                m_proxyAddress := proxyAddress;
                m_proxyPort := proxyPort;
                m_map := map;
                m_maxPlayers := maxPlayers;
                m_playersConnected := 0;
                m_createdAt := t_created;
                m_lastHeartbeat := t_heartbeat |}).

(** An exception that escapes a handler reaches Express's default error
    handler, which answers 500. *)
Definition register_handler (matches : Map Match) (b : RegisterBody)
    (uuid : string) (t_created t_heartbeat : Z) : Map Match * Response :=
  match register_match b uuid t_created t_heartbeat with
  | ThrowTypeError => (matches, respond 500 (ErrorJson "Internal Server Error"))
  | Normal None =>
      (matches,
       respond 400
         (ErrorJson "Missing fields: hostName, proxyAddress, proxyPort, map required"))
  | Normal (Some m) =>
      (Map_set matches uuid m,
       respond 200
         (RegisterJson uuid
            (ToString (body_proxyAddress b) +:+ ":" +:+ ToString (body_proxyPort b))))
  end.

(** ** server.js: the heartbeat handler (lines 75-85)

    [match] is the object the map holds, so the assignment changes the stored
    entry in place. *)
Definition heartbeat_handler (matches : Map Match) (id : jsval) (now : Z)
  : Map Match * Response :=
  match key_of id with
  | Some k =>
      match Map_get matches k with
      | Some m => (Map_set matches k (set_lastHeartbeat now m), respond 200 HeartbeatJson)
      | None => (matches, respond 404 (ErrorJson "Match not found or expired"))
      end
  | None => (matches, respond 404 (ErrorJson "Match not found or expired"))
  end.

(** ** server.js: the list handler (lines 88-112) *)

Definition view (now : Z) (m : Match) : MatchView :=
  {| v_id := m_id m;
     v_hostName := m_hostName m;
     v_proxyAddress := m_proxyAddress m;
     v_proxyPort := m_proxyPort m;
     v_proxyUrl := m_proxyAddress m +:+ ":" +:+ Number_toString (m_proxyPort m);
     v_map := m_map m;
     v_maxPlayers := m_maxPlayers m;
     v_playersConnected := m_playersConnected m;
     (* Math.floor of the quotient: floor division twice *)
     v_age := (now - m_createdAt m) / 1000 / 60;
     v_isRecent := bool_decide (now - m_lastHeartbeat m < 30000) |}.

(** The comparator [(a, b) => b.lastHeartbeat - a.lastHeartbeat], applied to
    the projected objects. *)
Definition by_lastHeartbeat (a b : MatchView) : jsnum :=
  minus (MatchView_get b "lastHeartbeat") (MatchView_get a "lastHeartbeat").

Definition activeMatches (matches : Map Match) (now : Z) : list MatchView :=
  slice0 100
    (sort by_lastHeartbeat
       (view now <$> filter (λ m, now - m_lastHeartbeat m < 120000) (Map_values matches))).

Definition list_handler (matches : Map Match) (now : Z) : Map Match * Response :=
  let activeMatches := activeMatches matches now in
  (matches, respond 200 (ListJson activeMatches (length activeMatches) now)).

(** ** server.js: the unregister handler (lines 115-125) *)
Definition unregister_handler (matches : Map Match) (id : jsval) : Map Match * Response :=
  match key_of id with
  | Some k =>
      let '(matches, deleted) := Map_delete matches k in
      if deleted : bool then (matches, respond 200 UnregisterJson)
      else (matches, respond 404 (ErrorJson "Match not found"))
  | None => (matches, respond 404 (ErrorJson "Match not found"))
  end.

(** ** server.js: health (lines 128-137) and stats (lines 140-149)

    The health filter calls [Date.now()] once per stored match: [clock i] is
    the reading taken for the match at position [i]. *)
Definition health_active (matches : Map Match) (clock : nat → Z) : list (nat * Match) :=
  filter (λ im, clock im.1 - m_lastHeartbeat im.2 < 120000) (imap pair (Map_values matches)).

Definition health_handler (matches : Map Match) (clock : nat → Z) : Map Match * Response :=
  (matches, respond 200 (HealthJson (Map_size matches) (length (health_active matches clock)))).

Definition stats_handler (matches : Map Match) (now : Z) : Map Match * Response :=
  (matches,
   respond 200
     (StatsJson (Map_size matches)
        (length (filter (λ m, now - m_lastHeartbeat m < 120000) (Map_values matches))))).

(** The catch-all route (lines 152-156). *)
Definition notfound_handler (matches : Map Match) : Map Match * Response :=
  (matches, respond 404 (ErrorJson "Endpoint not found. Check /health or /api/matches/list")).

(** ** The application: middleware, then routing *)

Record State : Type := {
  matches : Map Match;
  rateLimit : gmap string (list Z)
}.

(** The route a request resolves to, with what its handler reads from the
    request body and from the environment. *)
Inductive Route : Type :=
| PostRegister (b : RegisterBody) (uuid : string) (t_created t_heartbeat : Z)
| PostHeartbeat (id : jsval) (now : Z)
| GetList (now : Z)
| PostUnregister (id : jsval)
| GetHealth (clock : nat → Z)
| GetStats (now : Z)
| NoRoute.

(** What the two middlewares mounted ahead of the limiter (lines 9-10) do
    with a request.  [cors()] answers an OPTIONS request itself, with status
    204 and an empty body.  [express.json] hands a body it cannot read
    (malformed JSON, more than 10kb, ...) to Express's error handler, which
    answers with the status of the error (400, 413, ...).  Every other request
    goes on to the limiter. *)
Inductive Early : Type :=
| CorsPreflight
| BodyRejected (code : Z)
| Next.

(** [req_now] is the middleware's own [Date.now()] reading.  Express matches
    paths case-insensitively and with an optional trailing slash, so
    [req_path], which keys the limiter, is not determined by the route. *)
Record Request : Type := {
  req_early : Early;
  req_ip : string;
  req_path : string;
  req_now : Z;
  req_route : Route
}.

Definition dispatch (matches : Map Match) (r : Route) : Map Match * Response :=
  match r with
  | PostRegister b uuid t1 t2 => register_handler matches b uuid t1 t2
  | PostHeartbeat id now => heartbeat_handler matches id now
  | GetList now => list_handler matches now
  | PostUnregister id => unregister_handler matches id
  | GetHealth clock => health_handler matches clock
  | GetStats now => stats_handler matches now
  | NoRoute => notfound_handler matches
  end.

(** The middleware stack in the order server.js mounts it: [cors()],
    [express.json], the limiter, the routes. *)
Definition app (s : State) (req : Request) : State * Response :=
  match req_early req with
  | CorsPreflight => (s, respond 204 NoJson)
  | BodyRejected code => (s, respond code NoJson)
  | Next =>
      let '(rl, denied) :=
        rateLimiter (rateLimit s) (req_ip req) (req_path req) (req_now req) in
      match denied with
      | Some res => ({| matches := matches s; rateLimit := rl |}, res)
      | None =>
          let '(ms, res) := dispatch (matches s) (req_route req) in
          ({| matches := ms; rateLimit := rl |}, res)
      end
  end.

(** The state when the process starts. *)
Definition initial : State := {| matches := []; rateLimit := ∅ |}.

Fixpoint run (s : State) (reqs : list Request) : State :=
  match reqs with
  | [] => s
  | req :: reqs' => run (app s req).1 reqs'
  end.

(** ** Predicates used in the statements *)

(** A match is active at [now] when its last heartbeat is less than two
    minutes old (the filter of the list, health and stats handlers). *)
Definition active (now : Z) (m : Match) : Prop := now - m_lastHeartbeat m < 120000.

#[global] Instance active_dec now m : Decision (active now m).
Proof. unfold active. apply _. Defined.

(** The match stored under the id a request names, if any. *)
Definition find_match (ms : Map Match) (id : jsval) : option Match :=
  key_of id ≫= Map_get ms.

(** What holds of [matches] in every state the server reaches: the keys are
    pairwise distinct and each entry is stored under its own [id]. *)
Definition wf_matches (ms : Map Match) : Prop :=
  NoDup (Map_keys ms) ∧ ∀ k m, (k, m) ∈ ms → m_id m = k.

(** A request field that is absent, [null] or a string. *)
Definition textual (v : jsval) : Prop :=
  v = undefined ∨ v = null ∨ ∃ s, v = JStr s.

(** A request field that is absent, [null] or a string that trims to the
    empty string. *)
Definition blank (v : jsval) : Prop :=
  v = undefined ∨ v = null ∨ ∃ s, v = JStr s ∧ trim s = "".

(** A request field that is a string with at least one character that is not
    white space. *)
Definition nonblank_text (v : jsval) : Prop :=
  ∃ s, v = JStr s ∧ Exists (λ c, isWhiteSpace c = false) (list_ascii_of_string s).

(** The route is a register call whose [crypto.randomUUID()] returned [k]. *)
Definition draws (k : string) (r : Route) : Prop :=
  match r with
  | PostRegister _ uuid _ _ => uuid = k
  | _ => False
  end.

(** The ids listed by a response of the list handler. *)
Definition listed_ids (r : Response) : list string :=
  match json r with
  | ListJson vs _ _ => v_id <$> vs
  | _ => []
  end.

(** The limiter's key for an identity and a path, the history the map holds
    for a key, and the part of a history that lies in the window ending at
    [now]. *)
Definition limiter_key (ip path : string) : string := ip +:+ ":" +:+ path.

Definition history (rl : gmap string (list Z)) (key : string) : list Z :=
  default [] (rl !! key).

Definition window (now : Z) (ts : list Z) : list Z :=
  filter (λ t, now - t < 60000) ts.

(** The decisions of the limiter on successive calls with one identity and
    path, at the times [ts]: [true] is a denial. *)
Fixpoint limiter_trace (rl : gmap string (list Z)) (ip path : string) (ts : list Z)
  : list bool :=
  match ts with
  | [] => []
  | t :: ts' =>
      let '(rl', denied) := rateLimiter rl ip path t in
      bool_decide (is_Some denied) :: limiter_trace rl' ip path ts'
  end.

Fixpoint limiter_run (rl : gmap string (list Z)) (ip path : string) (ts : list Z)
  : gmap string (list Z) :=
  match ts with
  | [] => rl
  | t :: ts' => limiter_run (rateLimiter rl ip path t).1 ip path ts'
  end.

(** The condition under which the guard rejects a body whose three text
    fields are absent or text. *)
Definition missing_field (b : RegisterBody) : Prop :=
  blank (body_hostName b) ∨ blank (body_proxyAddress b) ∨
  truthy (body_proxyPort b) = false ∨ blank (body_map b).

(** The match the register handler stores for a body that passes the guard. *)
Definition new_match (h a : string) (port : jsval) (p : string) (maxPlayers : jsval)
    (uuid : string) (t_created t_heartbeat : Z) : Match :=
  {| m_id := uuid;
     m_hostName := trim h;
     m_proxyAddress := trim a;
     m_proxyPort := parseInt port;
     m_map := trim p;
     m_maxPlayers := maxPlayers_default maxPlayers;
     m_playersConnected := 0;
     m_createdAt := t_created;
     m_lastHeartbeat := t_heartbeat |}.

Ltac case_trim s :=
  let E := fresh "Etrim" in
  destruct (String.eqb (trim s) "") eqn:E;
  [apply String.eqb_eq in E | apply String.eqb_neq in E].

(** ** Sample requests *)

Definition alice : RegisterBody :=
  {| body_hostName := JStr "Alice";
     body_proxyAddress := JStr "10.0.0.5";
     body_proxyPort := JNum (Num 7777);
     body_map := JStr "de_dust2";
     body_maxPlayers := undefined |}.

Definition bob : RegisterBody :=
  {| body_hostName := JStr " Bob ";
     body_proxyAddress := JStr "10.0.0.6";
     body_proxyPort := JStr "7778";
     body_map := JStr "cs_office";
     body_maxPlayers := JNum (Num 16) |}.

Definition with_proxyPort (port : jsval) (b : RegisterBody) : RegisterBody :=
  {| body_hostName := body_hostName b;
     body_proxyAddress := body_proxyAddress b;
     body_proxyPort := port;
     body_map := body_map b;
     body_maxPlayers := body_maxPlayers b |}.

Definition with_hostName (h : jsval) (b : RegisterBody) : RegisterBody :=
  {| body_hostName := h;
     body_proxyAddress := body_proxyAddress b;
     body_proxyPort := body_proxyPort b;
     body_map := body_map b;
     body_maxPlayers := body_maxPlayers b |}.

Definition with_map (p : jsval) (b : RegisterBody) : RegisterBody :=
  {| body_hostName := body_hostName b;
     body_proxyAddress := body_proxyAddress b;
     body_proxyPort := body_proxyPort b;
     body_map := p;
     body_maxPlayers := body_maxPlayers b |}.

Definition with_maxPlayers (v : jsval) (b : RegisterBody) : RegisterBody :=
  {| body_hostName := body_hostName b;
     body_proxyAddress := body_proxyAddress b;
     body_proxyPort := body_proxyPort b;
     body_map := body_map b;
     body_maxPlayers := v |}.

Definition uuid_a : string := "6f1c2d3e-0a4b-4c5d-8e6f-1a2b3c4d5e6f".
Definition uuid_b : string := "b7e8f9a0-1c2d-4e3f-9a4b-5c6d7e8f9a0b".

Definition request (path : string) (now : Z) (r : Route) : Request :=
  {| req_early := Next; req_ip := "203.0.113.7"; req_path := path; req_now := now;
     req_route := r |}.

(** Alice registers at 1000, Bob at 2000, and Bob's match is refreshed at
    3000. *)
Definition two_hosts : list Request :=
  [ request "/api/matches/register" 1000 (PostRegister alice uuid_a 1000 1000);
    request "/api/matches/register" 2000 (PostRegister bob uuid_b 2000 2000);
    request "/api/matches/heartbeat" 3000 (PostHeartbeat (JStr uuid_b) 3000) ].

(** [n] hosts registering one after the other at time 0, under the ids
    "0", "1", ... *)
Definition crowd (n : nat) : Map Match :=
  foldl (λ ms i, (register_handler ms alice (pretty (Z.of_nat i)) 0 0).1) [] (seq 0 n).

(** ** Predicates used in the further properties *)

(** What the register handler establishes of a match it stores under [k], and
    no handler undoes. *)
Definition stored_ok (k : string) (m : Match) : Prop :=
  m_id m = k ∧
  m_playersConnected m = 0 ∧
  m_maxPlayers m ≠ undefined ∧
  (m_hostName m ≠ "" ∧ trim (m_hostName m) = m_hostName m) ∧
  (m_proxyAddress m ≠ "" ∧ trim (m_proxyAddress m) = m_proxyAddress m) ∧
  (m_map m ≠ "" ∧ trim (m_map m) = m_map m).

(** An identity without a slash (an IPv4 or IPv6 address) and a path that
    starts with one (every [req.path]). *)
Definition no_slash (ip : string) : Prop := "/"%char ∉ list_ascii_of_string ip.
Definition rooted (path : string) : Prop := ∃ rest, path = String "/" rest.

(** The times of the calls the limiter admitted, among successive calls with
    one identity and path at the times [ts]. *)
Definition admitted_times (rl : gmap string (list Z)) (ip path : string) (ts : list Z)
  : list Z :=
  (filter (λ td : Z * bool, td.2 = false) (zip ts (limiter_trace rl ip path ts))).*1.

(** The number of matches the stats handler reports as active at [now]. *)
Definition stats_active (ms : Map Match) (now : Z) : nat :=
  length (filter (active now) (Map_values ms)).

(** ** Lemmas on the built-ins *)

Section MapFacts.
Context {V : Type}.
Implicit Types (m : Map V) (k : string) (v : V).

Lemma Map_get_Some_elem m k v : Map_get m k = Some v → (k, v) ∈ m.
Proof.
  induction m as [|[k' v'] m IH]; simpl; [done|].
  destruct (decide (k' = k)) as [->|]; intros Hget.
  - simplify_eq. left.
  - right. auto.
Qed.

Lemma Map_get_None m k : Map_get m k = None ↔ k ∉ Map_keys m.
Proof.
  unfold Map_keys. induction m as [|[k' v'] m IH]; simpl.
  - split; [intros _; apply not_elem_of_nil | done].
  - rewrite not_elem_of_cons. destruct (decide (k' = k)) as [->|Hne].
    + split; [done | by intros [? _]].
    + rewrite IH. split; [by intros ?; split | by intros [_ ?]].
Qed.

Lemma Map_get_is_Some m k : is_Some (Map_get m k) ↔ k ∈ Map_keys m.
Proof.
  rewrite <- not_eq_None_Some, Map_get_None.
  destruct (decide (k ∈ Map_keys m)); naive_solver.
Qed.

Lemma Map_get_elem_NoDup m k v :
  NoDup (Map_keys m) → (k, v) ∈ m → Map_get m k = Some v.
Proof.
  unfold Map_keys. induction m as [|[k' v'] m IH]; simpl; intros Hnd Hin.
  - by apply elem_of_nil in Hin.
  - apply NoDup_cons in Hnd as [Hk' Hnd].
    apply elem_of_cons in Hin as [Heq|Hin].
    + simplify_eq. by rewrite decide_True.
    + rewrite decide_False; [auto|].
      intros ->. apply Hk'. by apply (list_elem_of_fmap_2 fst) in Hin.
Qed.

Lemma Map_get_set_eq m k v : Map_get (Map_set m k v) k = Some v.
Proof.
  induction m as [|[k' v'] m IH]; simpl.
  - by rewrite decide_True.
  - destruct (decide (k' = k)); simpl; [by rewrite decide_True | by rewrite decide_False].
Qed.

Lemma Map_get_set_ne m k k' v : k ≠ k' → Map_get (Map_set m k v) k' = Map_get m k'.
Proof.
  intros Hne. induction m as [|[k0 v0] m IH]; simpl.
  - by rewrite decide_False.
  - destruct (decide (k0 = k)) as [->|]; simpl.
    + by rewrite !decide_False.
    + by rewrite IH.
Qed.

(** [set] on a new key appends the entry. *)
Lemma Map_set_absent m k v : Map_get m k = None → Map_set m k v = (m ++ [(k, v)])%list.
Proof.
  induction m as [|[k' v'] m IH]; simpl; [done|].
  destruct (decide (k' = k)); [done|]. intros Hget. by rewrite IH.
Qed.

(** [set] on a present key keeps every key in its place. *)
Lemma Map_keys_set_present m k v :
  is_Some (Map_get m k) → Map_keys (Map_set m k v) = Map_keys m.
Proof.
  unfold Map_keys. induction m as [|[k' v'] m IH]; simpl.
  - by intros [? ?].
  - destruct (decide (k' = k)); simpl; [by subst|]. intros Hget. f_equal. by apply IH.
Qed.

Lemma Map_set_elem m k v k' v' :
  (k', v') ∈ Map_set m k v → (k', v') = (k, v) ∨ (k', v') ∈ m.
Proof.
  induction m as [|[k0 v0] m IH]; simpl.
  - rewrite list_elem_of_singleton. auto.
  - destruct (decide (k0 = k)); rewrite !elem_of_cons.
    + intros [?|?]; auto.
    + intros [?|?]; [auto|]. destruct IH; auto.
Qed.

Lemma Map_set_NoDup m k v : NoDup (Map_keys m) → NoDup (Map_keys (Map_set m k v)).
Proof.
  intros Hnd. destruct (Map_get m k) as [v0|] eqn:Hget.
  - rewrite Map_keys_set_present; [done | by rewrite Hget].
  - rewrite Map_set_absent by done. unfold Map_keys in *.
    rewrite fmap_app. apply NoDup_app. split_and!; [done| |apply NoDup_singleton].
    intros x Hx ->%list_elem_of_singleton. by apply Map_get_None in Hget.
Qed.

Lemma Map_remove_absent m k : Map_get m k = None → Map_remove m k = m.
Proof.
  induction m as [|[k' v'] m IH]; simpl; [done|].
  destruct (decide (k' = k)); [done|]. intros Hget. by rewrite IH.
Qed.

Lemma Map_remove_sublist m k : Map_remove m k `sublist_of` m.
Proof.
  induction m as [|[k' v'] m IH]; simpl; [done|].
  destruct (decide (k' = k)); [by apply sublist_cons | by apply sublist_skip].
Qed.

Lemma Map_remove_elem m k k' v' : (k', v') ∈ Map_remove m k → (k', v') ∈ m.
Proof. intros Hin. eapply elem_of_sublist; [done | apply Map_remove_sublist]. Qed.

Lemma Map_remove_NoDup m k : NoDup (Map_keys m) → NoDup (Map_keys (Map_remove m k)).
Proof.
  intros Hnd. apply (sublist_NoDup _ (Map_keys m)); [done|].
  unfold Map_keys. apply fmap_sublist, Map_remove_sublist.
Qed.

Lemma Map_get_remove_ne m k k' : k ≠ k' → Map_get (Map_remove m k) k' = Map_get m k'.
Proof.
  intros Hne. induction m as [|[k0 v0] m IH]; simpl; [done|].
  destruct (decide (k0 = k)) as [->|]; simpl.
  - by rewrite decide_False.
  - by rewrite IH.
Qed.

(** After [delete], the key is gone (the keys of a [Map] are distinct). *)
Lemma Map_get_remove_eq m k : NoDup (Map_keys m) → Map_get (Map_remove m k) k = None.
Proof.
  unfold Map_keys. induction m as [|[k0 v0] m IH]; simpl; [done|].
  intros [Hk0 Hnd]%NoDup_cons.
  destruct (decide (k0 = k)) as [->|]; simpl.
  - by apply Map_get_None.
  - rewrite decide_False by done. auto.
Qed.

Lemma Map_remove_length m k :
  is_Some (Map_get m k) → S (Map_size (Map_remove m k)) = Map_size m.
Proof.
  unfold Map_size. induction m as [|[k0 v0] m IH]; simpl.
  - by intros [? ?].
  - destruct (decide (k0 = k)); simpl; [done|]. intros Hget. by rewrite IH.
Qed.
End MapFacts.

Lemma truthy_JStr s : truthy (JStr s) = true ↔ s ≠ "".
Proof.
  simpl. rewrite negb_true_iff. split.
  - intros Heq ->. by rewrite String.eqb_refl in Heq.
  - intros Hne. by apply String.eqb_neq.
Qed.

Lemma truthy_JStr_false s : truthy (JStr s) = false ↔ s = "".
Proof. simpl. rewrite negb_false_iff. apply String.eqb_eq. Qed.

(** The model of [sort] does sort: its result is a permutation of the array,
    and with a comparator [(a, b) => f(b) - f(a)] it is in descending order of
    [f]. *)
Lemma sort_insert_Permutation {A} (comparefn : A → A → jsnum) x (l : list A) :
  sort_insert comparefn x l ≡ₚ x :: l.
Proof.
  induction l as [|y l IH]; simpl; [done|].
  destruct (SortCompare_gt (comparefn x y)); [|done].
  rewrite IH. apply Permutation_swap.
Qed.

Lemma sort_Permutation {A} (comparefn : A → A → jsnum) (l : list A) :
  sort comparefn l ≡ₚ l.
Proof.
  induction l as [|x l IH]; simpl; [done|].
  by rewrite sort_insert_Permutation, IH.
Qed.

Lemma sort_insert_descending {A} (f : A → Z) x (l : list A) :
  StronglySorted (λ a b, f b ≤ f a) l →
  StronglySorted (λ a b, f b ≤ f a) (sort_insert (λ a b, Num (f b - f a)) x l).
Proof.
  induction 1 as [|y l Hsorted IH Hy]; simpl.
  - repeat constructor.
  - destruct (Z.ltb_spec 0 (f y - f x)).
    + constructor; [done|].
      rewrite sort_insert_Permutation. constructor; [lia | done].
    + constructor; [by constructor|].
      constructor; [lia|]. eapply Forall_impl; [exact Hy|]. simpl. intros z Hz. lia.
Qed.

Lemma sort_descending {A} (f : A → Z) (l : list A) :
  StronglySorted (λ a b, f b ≤ f a) (sort (λ a b, Num (f b - f a)) l).
Proof.
  induction l as [|x l IH]; simpl; [constructor|]. by apply sort_insert_descending.
Qed.

(** The comparator of the list handler reads a property the projected
    objects do not have, so it returns [NaN] on every pair. *)
Lemma by_lastHeartbeat_NaN a b : by_lastHeartbeat a b = NaN.
Proof. reflexivity. Qed.

(** A comparator that never returns a positive number leaves the array as
    it is. *)
Lemma sort_never_gt {A} (comparefn : A → A → jsnum) (l : list A) :
  (∀ a b, SortCompare_gt (comparefn a b) = false) → sort comparefn l = l.
Proof.
  intros Hcmp. induction l as [|x l IH]; simpl; [done|].
  rewrite IH. destruct l as [|y l]; simpl; [done|]. by rewrite Hcmp.
Qed.

(** What the list handler returns: the active matches in the iteration order
    of [matches], cut after the first 100. *)
Lemma activeMatches_eq ms now :
  activeMatches ms now = take 100 (view now <$> filter (active now) (Map_values ms)).
Proof.
  unfold activeMatches, slice0. rewrite sort_never_gt; [done|].
  intros a b. by rewrite by_lastHeartbeat_NaN.
Qed.

Lemma Map_get_values ms k (m : Match) : Map_get ms k = Some m → m ∈ Map_values ms.
Proof.
  intros Hin%Map_get_Some_elem. unfold Map_values.
  apply list_elem_of_fmap. by exists (k, m).
Qed.

Lemma activeMatches_elem ms now v :
  v ∈ activeMatches ms now →
  ∃ k m, (k, m) ∈ ms ∧ active now m ∧ v = view now m.
Proof.
  rewrite activeMatches_eq. intros Hin.
  eapply elem_of_sublist in Hin; [|apply sublist_take].
  apply list_elem_of_fmap in Hin as (m & -> & Hm).
  apply list_elem_of_filter in Hm as [Hact Hm].
  unfold Map_values in Hm. apply list_elem_of_fmap in Hm as ([k m'] & -> & Hkm).
  by exists k, m'.
Qed.

(** The floor-division form of [v_age] is the floor of the quotient by
    60 000. *)
Lemma view_age_floor now m :
  60000 * v_age (view now m) ≤ now - m_createdAt m < 60000 * (v_age (view now m) + 1).
Proof.
  simpl. rewrite Z.div_div by lia. change (1000 * 60) with 60000.
  pose proof (Z.mul_div_le (now - m_createdAt m) 60000).
  pose proof (Z.mul_succ_div_gt (now - m_createdAt m) 60000). lia.
Qed.

(** *** Strings: reversal and trimming *)

Lemma string_app_cons c (s t : string) : String c s +:+ t = String c (s +:+ t).
Proof. reflexivity. Qed.

Lemma string_app_nil_r (s : string) : s +:+ "" = s.
Proof.
  induction s as [|c s IH]; [done|]. by rewrite string_app_cons, IH.
Qed.

Lemma string_app_assoc (s1 s2 s3 : string) : (s1 +:+ s2) +:+ s3 = s1 +:+ (s2 +:+ s3).
Proof.
  induction s1 as [|c s1 IH]; [done|]. by rewrite !string_app_cons, IH.
Qed.

Lemma string_rev_app_acc (s acc : string) : String.rev_app s acc = String.rev s +:+ acc.
Proof.
  unfold String.rev. revert acc. induction s as [|c s IH]; intros acc; simpl; [done|].
  rewrite (IH (String c "")), (IH (String c acc)), string_app_assoc. done.
Qed.

Lemma string_rev_cons c (s : string) : String.rev (String c s) = String.rev s +:+ String c "".
Proof. unfold String.rev at 1. simpl. apply string_rev_app_acc. Qed.

Lemma string_rev_app (s1 s2 : string) :
  String.rev (s1 +:+ s2) = String.rev s2 +:+ String.rev s1.
Proof.
  induction s1 as [|c s1 IH].
  - by rewrite string_app_nil_r.
  - by rewrite string_app_cons, !string_rev_cons, IH, string_app_assoc.
Qed.

Lemma string_rev_involutive (s : string) : String.rev (String.rev s) = s.
Proof.
  induction s as [|c s IH]; [done|].
  by rewrite string_rev_cons, string_rev_app, IH.
Qed.

Lemma trimStart_idemp s : trimStart (trimStart s) = trimStart s.
Proof.
  induction s as [|c s IH]; simpl; [done|].
  destruct (isWhiteSpace c) eqn:Hc; [done|]. simpl. by rewrite Hc.
Qed.

Lemma trimStart_length s : (String.length (trimStart s) ≤ String.length s)%nat.
Proof.
  induction s as [|c s IH]; simpl; [done|].
  destruct (isWhiteSpace c); simpl; lia.
Qed.

(** A string that [trimStart] leaves alone is empty or starts with a
    character that is not white space. *)
Lemma trimStart_fixed_cons c s : trimStart (String c s) = String c s → isWhiteSpace c = false.
Proof.
  simpl. destruct (isWhiteSpace c); [|done]. intros Heq.
  pose proof (trimStart_length s) as Hlen. rewrite Heq in Hlen. simpl in Hlen. lia.
Qed.

Lemma trimStart_app u v : trimStart v = v → trimStart (u +:+ v) = trimStart u +:+ v.
Proof.
  intros Hv. induction u as [|c u IH]; [done|].
  rewrite string_app_cons. simpl. by destruct (isWhiteSpace c).
Qed.

Lemma trimEnd_cons c s : isWhiteSpace c = false → trimEnd (String c s) = String c (trimEnd s).
Proof.
  intros Hc. unfold trimEnd. rewrite string_rev_cons, trimStart_app.
  - by rewrite string_rev_app.
  - simpl. by rewrite Hc.
Qed.

Lemma trimEnd_idemp s : trimEnd (trimEnd s) = trimEnd s.
Proof. unfold trimEnd. by rewrite string_rev_involutive, trimStart_idemp. Qed.

Lemma trimStart_trimEnd s : trimStart s = s → trimStart (trimEnd s) = trimEnd s.
Proof.
  destruct s as [|c s]; [done|]. intros Hc%trimStart_fixed_cons.
  rewrite trimEnd_cons by done. simpl. by rewrite Hc.
Qed.

(** [trim] is idempotent: a trimmed string has no white space left at either
    end. *)
Lemma trim_idemp s : trim (trim s) = trim s.
Proof.
  unfold trim. rewrite trimStart_trimEnd by apply trimStart_idemp.
  apply trimEnd_idemp.
Qed.

Lemma trimStart_empty s :
  trimStart s = "" ↔ Forall (λ c, isWhiteSpace c = true) (list_ascii_of_string s).
Proof.
  induction s as [|c s IH]; simpl; [by split; [constructor|]|].
  destruct (isWhiteSpace c) eqn:Hc.
  - rewrite IH. split; [by constructor | by intros [_ ?]%Forall_cons].
  - split; [done|]. intros [Hc' _]%Forall_cons. congruence.
Qed.

(** [trim] gives the empty string exactly on the strings that consist of
    white space only. *)
Lemma trim_empty s :
  trim s = "" ↔ Forall (λ c, isWhiteSpace c = true) (list_ascii_of_string s).
Proof.
  rewrite <- trimStart_empty. unfold trim.
  destruct (trimStart s) as [|c t] eqn:Hs; [done|].
  assert (isWhiteSpace c = false) as Hc.
  { apply (trimStart_fixed_cons c t). rewrite <- Hs. apply trimStart_idemp. }
  by rewrite trimEnd_cons.
Qed.

(** *** [parseInt] reads back what [ToString] prints *)


Lemma radix_digit_pretty_N_char x :
  (x < 10)%N → radix_digit 10 (pretty_N_char x) = Some (Z.of_N x).
Proof.
  intros Hx.
  assert (x = 0 ∨ x = 1 ∨ x = 2 ∨ x = 3 ∨ x = 4 ∨ x = 5 ∨ x = 6 ∨ x = 7 ∨ x = 8 ∨ x = 9)%N
    as Hcases by lia.
  repeat (destruct Hcases as [->|Hcases]; [reflexivity|]). by subst.
Qed.

(** Reading the digits that [pretty_N_go] puts in front of [s]. *)
Lemma parse_digits_pretty_N_go x s :
  (0 < x)%N →
  parse_digits 10 (pretty_N_go x s) None = parse_digits 10 s (Some (Z.of_N x)).
Proof.
  revert s. induction (N.lt_wf_0 x) as [x _ IH]. intros s Hx.
  rewrite pretty_N_go_step by done.
  assert (x `mod` 10 < 10)%N as Hmod by (by apply N.mod_lt).
  pose proof (N.div_mod x 10 ltac:(done)) as Hdiv.
  destruct (decide (x `div` 10 = 0)%N) as [Hq|Hq].
  - rewrite Hq, pretty_N_go_0. simpl. rewrite radix_digit_pretty_N_char by done.
    simpl. do 2 f_equal. lia.
  - rewrite IH; [|by apply N.div_lt|lia].
    simpl. rewrite radix_digit_pretty_N_char by done. simpl. do 2 f_equal. lia.
Qed.





(** Below 2^53 every integer is a double, and prints as its plain decimal. *)
Lemma nearest_double_safe z : Z.abs z < 2 ^ 53 → nearest_double z = Some z.
Proof.
  intros Hz. unfold nearest_double. cbv zeta.
  by destruct (Z.ltb_spec (Z.abs z) (2 ^ 53)); [|lia].
Qed.

Lemma Number_of_Z_safe z : Z.abs z < 2 ^ 53 → Number_of_Z z = Num z.
Proof. intros Hz. unfold Number_of_Z. by rewrite nearest_double_safe. Qed.


Lemma parseInt_mathInt v :
  parseInt v = match mathInt v with Some n => Number_of_Z n | None => NaN end.
Proof. done. Qed.

Lemma Number_of_Z_not_NaN n : Number_of_Z n ≠ NaN.
Proof. unfold Number_of_Z. by destruct (nearest_double n). Qed.

(** [parseInt] gives [NaN] exactly when there is no digit to read. *)
Lemma parseInt_NaN v : parseInt v = NaN ↔ mathInt v = None.
Proof.
  rewrite parseInt_mathInt. destruct (mathInt v) as [n|]; [|done].
  split; [|done]. intros H. by apply Number_of_Z_not_NaN in H.
Qed.

Lemma parseInt_safe v n : mathInt v = Some n → Z.abs n < 2 ^ 53 → parseInt v = Num n.
Proof. intros Hv Hn. rewrite parseInt_mathInt, Hv. by apply Number_of_Z_safe. Qed.


(** Beyond 2^53 [parseInt] rounds to the nearest double; from 10^21 on a
    number prints in exponent form, so [parseInt] of the number reads its
    first digit only; of a number with a fraction it reads the integer part. *)
Example parseInt_of_large_and_fractional :
  parseInt (JStr "9007199254740993") = Num 9007199254740992 ∧
  Number_toString (Num (10 ^ 21)) = "1e+21" ∧
  parseInt (JNum (Num (10 ^ 21))) = Num 1 ∧
  Number_toString (Num (2 ^ 70)) = "1.1805916207174113e+21" ∧
  parseInt (JNum (Other "2.5")) = Num 2 ∧
  parseInt (JNum (Other "Infinity")) = NaN.
Proof. vm_compute. split_and!; reflexivity. Qed.

Lemma trim_nonempty s :
  trim s ≠ "" ↔ Exists (λ c, isWhiteSpace c = false) (list_ascii_of_string s).
Proof.
  rewrite trim_empty. split.
  - intros Hnot%not_Forall_Exists; [|apply _].
    eapply Exists_impl; [exact Hnot|]. simpl. intros c Hc. by destruct (isWhiteSpace c).
  - intros (c & Hin & Hc)%Exists_exists Hall.
    rewrite Forall_forall in Hall. specialize (Hall c Hin). congruence.
Qed.

Lemma nonblank_text_trim v : nonblank_text v ↔ ∃ s, v = JStr s ∧ trim s ≠ "".
Proof.
  unfold nonblank_text. split; intros (s & -> & Hs); exists s; (split; [done|]);
    by apply trim_nonempty.
Qed.

(** *** The register handler, case by case *)

Lemma register_match_Some b uuid t1 t2 m :
  register_match b uuid t1 t2 = Normal (Some m) ↔
  ∃ h a p,
    body_hostName b = JStr h ∧ trim h ≠ "" ∧
    body_proxyAddress b = JStr a ∧ trim a ≠ "" ∧
    truthy (body_proxyPort b) = true ∧
    body_map b = JStr p ∧ trim p ≠ "" ∧
    m = new_match h a (body_proxyPort b) p (body_maxPlayers b) uuid t1 t2.
Proof.
  destruct b as [h a port p mp]. unfold register_match, register_guard. simpl. split.
  - destruct h as [| | |?|h]; try done; simpl. case_trim h; [done|]. simpl.
    destruct a as [| | |?|a]; try done; simpl. case_trim a; [done|]. simpl.
    destruct (truthy port) eqn:Hport; [|done]. simpl.
    destruct p as [| | |?|p]; try done; simpl. case_trim p; [done|]. simpl.
    intros [= <-]. by exists h, a, p.
  - intros (h' & a' & p' & -> & Hh & -> & Ha & Hport & -> & Hp & ->). simpl.
    apply String.eqb_neq in Hh, Ha, Hp. by rewrite Hh, Ha, Hport, Hp.
Qed.

Lemma register_handler_Success ms b uuid t1 t2 :
  Success (register_handler ms b uuid t1 t2).2 ↔
  ∃ m, register_match b uuid t1 t2 = Normal (Some m).
Proof.
  unfold register_handler, Success.
  destruct (register_match b uuid t1 t2) as [[m|]|]; simpl.
  - split; [by exists m | done].
  - split; [done | by intros [? ?]].
  - split; [done | by intros [? ?]].
Qed.

(** The handler answers 200 exactly when the three text fields are strings
    with a character that is not white space and [proxyPort] is truthy. *)
Lemma register_handler_Success_iff ms b uuid t1 t2 :
  Success (register_handler ms b uuid t1 t2).2 ↔
  nonblank_text (body_hostName b) ∧ nonblank_text (body_proxyAddress b) ∧
  truthy (body_proxyPort b) = true ∧ nonblank_text (body_map b).
Proof.
  rewrite register_handler_Success, !nonblank_text_trim. split.
  - intros (m & (h & a & p & ? & ? & ? & ? & ? & ? & ? & _)%register_match_Some).
    split_and!; eauto.
  - intros ((h & Hh & ?) & (a & Ha & ?) & ? & (p & Hp & ?)).
    eexists. apply register_match_Some. exists h, a, p. split_and!; done.
Qed.

Lemma register_handler_ok ms b uuid t1 t2 m :
  register_match b uuid t1 t2 = Normal (Some m) →
  register_handler ms b uuid t1 t2 =
    (Map_set ms uuid m,
     respond 200
       (RegisterJson uuid
          (ToString (body_proxyAddress b) +:+ ":" +:+ ToString (body_proxyPort b)))).
Proof. unfold register_handler. by intros ->. Qed.

(** Whenever the handler does not answer 200, [matches] is as before. *)
Lemma register_handler_rejected ms b uuid t1 t2 :
  ¬ Success (register_handler ms b uuid t1 t2).2 →
  (register_handler ms b uuid t1 t2).1 = ms.
Proof.
  unfold register_handler, Success.
  by destruct (register_match b uuid t1 t2) as [[m|]|].
Qed.

(** The status of the answer is decided by the guard alone. *)
Lemma register_handler_status ms b uuid t1 t2 :
  status (register_handler ms b uuid t1 t2).2 =
  match register_guard b with
  | ThrowTypeError => 500
  | Normal true => 400
  | Normal false => 200
  end.
Proof.
  destruct b as [h a port p mp].
  unfold register_handler, register_match, register_guard. simpl.
  destruct h as [| | |?|h]; simpl; try done.
  destruct (String.eqb (trim h) ""); simpl; [done|].
  destruct a as [| | |?|a]; simpl; try done.
  destruct (String.eqb (trim a) ""); simpl; [done|].
  destruct (truthy port); simpl; [|done].
  destruct p as [| | |?|p]; simpl; try done.
  by destruct (String.eqb (trim p) "").
Qed.

(** *** The heartbeat and unregister handlers, case by case *)

Lemma heartbeat_handler_found ms id now k m :
  key_of id = Some k → Map_get ms k = Some m →
  heartbeat_handler ms id now =
    (Map_set ms k (set_lastHeartbeat now m), respond 200 HeartbeatJson).
Proof. unfold heartbeat_handler. by intros -> ->. Qed.

Lemma heartbeat_handler_missing ms id now :
  find_match ms id = None →
  heartbeat_handler ms id now =
    (ms, respond 404 (ErrorJson "Match not found or expired")).
Proof.
  unfold heartbeat_handler, find_match.
  destruct (key_of id) as [k|]; simpl; [|done]. by intros ->.
Qed.

Lemma unregister_handler_found ms id k m :
  key_of id = Some k → Map_get ms k = Some m →
  unregister_handler ms id = (Map_remove ms k, respond 200 UnregisterJson).
Proof.
  unfold unregister_handler, Map_delete, Map_has. intros -> Hget.
  rewrite bool_decide_eq_true_2; [done | by rewrite Hget].
Qed.

Lemma unregister_handler_missing ms id :
  find_match ms id = None →
  unregister_handler ms id = (ms, respond 404 (ErrorJson "Match not found")).
Proof.
  unfold unregister_handler, find_match, Map_delete, Map_has.
  destruct (key_of id) as [k|]; simpl; [|done]. intros Hget.
  rewrite bool_decide_eq_false_2; [by rewrite Map_remove_absent | rewrite Hget; by intros [? ?]].
Qed.

(** *** The invariant of [matches] *)

Lemma wf_matches_nil : wf_matches [].
Proof. split; [constructor | by intros k m ?%elem_of_nil]. Qed.

Lemma wf_matches_set ms k m : wf_matches ms → m_id m = k → wf_matches (Map_set ms k m).
Proof.
  intros [Hnd Hid] Hm. split; [by apply Map_set_NoDup|].
  intros k' m' [Heq|Hin]%Map_set_elem; [by simplify_eq | auto].
Qed.

Lemma wf_matches_remove ms k : wf_matches ms → wf_matches (Map_remove ms k).
Proof.
  intros [Hnd Hid]. split; [by apply Map_remove_NoDup|].
  intros k' m' Hin%Map_remove_elem. auto.
Qed.

Lemma wf_matches_get ms k m : wf_matches ms → Map_get ms k = Some m → m_id m = k.
Proof. intros [_ Hid] Hget%Map_get_Some_elem. auto. Qed.

Lemma wf_register ms b uuid t1 t2 :
  wf_matches ms → wf_matches (register_handler ms b uuid t1 t2).1.
Proof.
  intros Hwf. unfold register_handler.
  destruct (register_match b uuid t1 t2) as [[m|]|] eqn:Hreg; simpl; [|done..].
  apply wf_matches_set; [done|].
  apply register_match_Some in Hreg as (h & a & p & _ & _ & _ & _ & _ & _ & _ & ->). done.
Qed.

Lemma wf_heartbeat ms id now : wf_matches ms → wf_matches (heartbeat_handler ms id now).1.
Proof.
  intros Hwf. unfold heartbeat_handler.
  destruct (key_of id) as [k|]; [|done].
  destruct (Map_get ms k) as [m|] eqn:Hget; [|done]. simpl.
  apply wf_matches_set; [done|]. simpl. by eapply wf_matches_get.
Qed.

Lemma wf_unregister ms id : wf_matches ms → wf_matches (unregister_handler ms id).1.
Proof.
  intros Hwf. unfold unregister_handler, Map_delete.
  destruct (key_of id) as [k|]; [|done].
  destruct (Map_has ms k); simpl; by apply wf_matches_remove.
Qed.

Create HintDb registry discriminated.
#[local] Hint Resolve wf_matches_nil wf_register wf_heartbeat wf_unregister : registry.

Lemma wf_dispatch ms r : wf_matches ms → wf_matches (dispatch ms r).1.
Proof. intros Hwf. destruct r; simpl; auto with registry. Qed.

Lemma app_matches s req :
  matches (app s req).1 = matches s ∨
  matches (app s req).1 = (dispatch (matches s) (req_route req)).1.
Proof.
  unfold app.
  destruct (req_early req); [by left | by left |].
  destruct (rateLimiter _ _ _ _) as [rl [res|]]; [by left|].
  destruct (dispatch _ _) as [ms res]. by right.
Qed.

Lemma wf_app s req : wf_matches (matches s) → wf_matches (matches (app s req).1).
Proof.
  intros Hwf. destruct (app_matches s req) as [-> | ->]; [done | by apply wf_dispatch].
Qed.

Lemma wf_run s reqs : wf_matches (matches s) → wf_matches (matches (run s reqs)).
Proof.
  revert s. induction reqs as [|req reqs IH]; intros s Hwf; simpl; [done|].
  by apply IH, wf_app.
Qed.

(** Every state the server reaches from its start satisfies the invariant. *)
Lemma wf_reachable reqs : wf_matches (matches (run initial reqs)).
Proof. apply wf_run, wf_matches_nil. Qed.

(** *** The rate limiter *)

Lemma rateLimiter_eq rl ip path now :
  let key := limiter_key ip path in
  let recent := window now (history rl key ++ [now])%list in
  rateLimiter rl ip path now =
    (<[key := recent]> rl,
     if (15 <? length recent)%nat
     then Some (respond 429 (ErrorJson "Rate limit exceeded. Slow down!"))
     else None).
Proof.
  simpl. unfold rateLimiter, history, window. fold (limiter_key ip path).
  set (key := limiter_key ip path).
  destruct (rl !! key) as [h|] eqn:Hh.
  - rewrite decide_True by eauto. rewrite Hh. simpl.
    rewrite !insert_insert_eq. by destruct (_ <? _)%nat.
  - rewrite decide_False by (by intros [? ?]).
    rewrite lookup_insert_eq. simpl.
    rewrite !insert_insert_eq. by destruct (_ <? _)%nat.
Qed.

Lemma rateLimiter_history rl ip path now :
  history (rateLimiter rl ip path now).1 (limiter_key ip path) =
  window now (history rl (limiter_key ip path) ++ [now])%list.
Proof.
  pose proof (rateLimiter_eq rl ip path now) as Heq. simpl in Heq. rewrite Heq.
  unfold history. simpl. by rewrite lookup_insert_eq.
Qed.

Lemma rateLimiter_denied rl ip path now :
  is_Some (rateLimiter rl ip path now).2 ↔
  (15 < length (window now (history rl (limiter_key ip path) ++ [now])%list))%nat.
Proof.
  pose proof (rateLimiter_eq rl ip path now) as Heq. simpl in Heq. rewrite Heq. simpl.
  destruct (Nat.ltb_spec 15 (length (window now (history rl (limiter_key ip path) ++ [now])%list))).
  - split; [done | eauto].
  - split; [by intros [? ?] | lia].
Qed.

(** Pruning at an earlier time loses nothing a later pruning would keep. *)
Lemma window_window t t' (l : list Z) : t ≤ t' → window t' (window t l) = window t' l.
Proof.
  intros Hle. unfold window. rewrite list_filter_filter.
  apply list_filter_iff. intros u. lia.
Qed.

Lemma window_app t (l1 l2 : list Z) : window t (l1 ++ l2) = (window t l1 ++ window t l2)%list.
Proof. apply filter_app. Qed.

Lemma window_all t (l : list Z) : Forall (λ u, t - u < 60000) l → window t l = l.
Proof.
  unfold window. induction 1 as [|u l Hu Hl IH]; [done|].
  by rewrite filter_cons_True, IH.
Qed.

Lemma window_none t (l : list Z) : Forall (λ u, 60000 ≤ t - u) l → window t l = [].
Proof.
  unfold window. induction 1 as [|u l Hu Hl IH]; [done|].
  rewrite filter_cons_False by lia. done.
Qed.

Lemma limiter_trace_length rl ip path ts : length (limiter_trace rl ip path ts) = length ts.
Proof.
  revert rl. induction ts as [|t ts IH]; intros rl; simpl; [done|].
  destruct (rateLimiter rl ip path t) as [rl' d] eqn:Hstep. simpl. by rewrite IH.
Qed.

(** The decision on the call at position [i] of a run of calls at
    non-decreasing times: it is denied exactly when the window that ends at
    its time holds more than 15 of the calls made so far, itself included. *)
Lemma limiter_trace_lookup rl ip path ts i t :
  StronglySorted Z.le ts → ts !! i = Some t →
  limiter_trace rl ip path ts !! i =
    Some (bool_decide (15 < length (window t (history rl (limiter_key ip path) ++ take (S i) ts)%list))%nat).
Proof.
  revert rl i. induction ts as [|t0 ts IH]; intros rl i Hsorted Hi; [done|].
  apply StronglySorted_inv in Hsorted as [Hsorted Hle].
  simpl. destruct (rateLimiter rl ip path t0) as [rl' d] eqn:Hstep.
  destruct i as [|i]; simpl in *.
  - simplify_eq. f_equal. rewrite take_0. apply bool_decide_ext.
    rewrite <- rateLimiter_denied. by rewrite Hstep.
  - rewrite (IH rl' i Hsorted Hi). do 2 f_equal. apply bool_decide_ext.
    replace rl' with (rateLimiter rl ip path t0).1 by (by rewrite Hstep).
    rewrite rateLimiter_history.
    assert (t0 ≤ t) as Ht.
    { rewrite Forall_forall in Hle. apply Hle. by eapply list_elem_of_lookup_2. }
    rewrite window_app, window_window by done.
    rewrite <- window_app, <- app_assoc. done.
Qed.

Lemma StronglySorted_lookup_le (ts : list Z) i j x y :
  StronglySorted Z.le ts → (i ≤ j)%nat → ts !! i = Some x → ts !! j = Some y → x ≤ y.
Proof.
  intros Hsorted. revert i j. induction Hsorted as [|t ts Hsorted IH Hle]; intros i j Hij Hi Hj; [done|].
  destruct i as [|i], j as [|j]; simpl in *; simplify_eq; [lia| |lia|].
  - rewrite Forall_forall in Hle. apply Hle. by eapply list_elem_of_lookup_2.
  - apply (IH i j); [lia|done..].
Qed.

(** A burst: calls at non-decreasing times that all fall in one window, on a
    key with nothing left in that window.  The first 15 are admitted and
    every later one is denied. *)
Lemma limiter_trace_burst rl ip path ts a b i t :
  StronglySorted Z.le ts →
  head ts = Some a → last ts = Some b → b - a < 60000 →
  Forall (λ u, 60000 ≤ a - u) (history rl (limiter_key ip path)) →
  ts !! i = Some t →
  limiter_trace rl ip path ts !! i = Some (bool_decide (15 ≤ i)%nat).
Proof.
  intros Hsorted Ha Hb Hab Hold Hi.
  rewrite (limiter_trace_lookup rl ip path ts i t) by done.
  f_equal. apply bool_decide_ext.
  assert (a ≤ t) as Hat.
  { apply (StronglySorted_lookup_le ts 0 i); [done|lia| |done]. by rewrite <- head_lookup. }
  assert (∀ j u, ts !! j = Some u → u ≤ b) as Hub.
  { intros j u Hj. rewrite last_lookup in Hb.
    apply (StronglySorted_lookup_le ts j (Nat.pred (length ts))); [done| |done..].
    apply lookup_lt_Some in Hj. lia. }
  rewrite window_app, window_none, window_all; simpl.
  - rewrite length_take. apply lookup_lt_Some in Hi. lia.
  - apply Forall_forall. intros u [j [Hj Hlt]]%elem_of_take.
    assert (a ≤ u).
    { apply (StronglySorted_lookup_le ts 0 j); [done|lia| |done]. by rewrite <- head_lookup. }
    specialize (Hub i t Hi). lia.
  - eapply Forall_impl; [exact Hold|]. simpl. intros u Hu. lia.
Qed.

(** Once every earlier timestamp of the key has left the window, the next
    call is admitted and the history starts anew. *)
Lemma rateLimiter_admitted_again rl ip path now :
  Forall (λ u, 60000 ≤ now - u) (history rl (limiter_key ip path)) →
  rateLimiter rl ip path now = (<[limiter_key ip path := [now]]> rl, None).
Proof.
  intros Hold. pose proof (rateLimiter_eq rl ip path now) as Heq. simpl in Heq.
  rewrite Heq, window_app, window_none by done. simpl.
  rewrite window_all by (constructor; [lia | constructor]). done.
Qed.

Lemma rateLimiter_other_keys rl ip path now k :
  k ≠ limiter_key ip path → (rateLimiter rl ip path now).1 !! k = rl !! k.
Proof.
  intros Hne. pose proof (rateLimiter_eq rl ip path now) as Heq. simpl in Heq.
  rewrite Heq. simpl. by rewrite lookup_insert_ne.
Qed.

(** ** C1: the order of the listing *)

(** C1 (the code departs from the claim).  The claim: [List()] is ordered by
    [lastHeartbeat] descending, and a match that was just refreshed sorts
    first.  The handler sorts the projected objects, which carry no
    [lastHeartbeat], so the sort changes nothing and the listing is in
    registration order.  Here Alice registers, then Bob, then Bob's match is
    refreshed: Bob's stored [lastHeartbeat] (3000) is the later one, yet the
    listing at 4000 has Alice's match first. *)
Theorem C1_refreshed_match_not_listed_first :
  let s := run initial two_hosts in
  m_lastHeartbeat <$> Map_get (matches s) uuid_a = Some 1000 ∧
  m_lastHeartbeat <$> Map_get (matches s) uuid_b = Some 3000 ∧
  listed_ids (app s (request "/api/matches/list" 4000 (GetList 4000))).2 = [uuid_a; uuid_b].
Proof. vm_compute. done. Qed.

(** ** C2 and C5: the guard of the register handler *)

Lemma register_match_missing b uuid t1 t2 m :
  missing_field b → register_match b uuid t1 t2 ≠ Normal (Some m).
Proof.
  intros Hmiss (h & a & p & Hh & Hht & Ha & Hat & Hport & Hp & Hpt & _)%register_match_Some.
  destruct Hmiss as [Hb|[Hb|[Hb|Hb]]];
    [rewrite Hh in Hb|rewrite Ha in Hb|congruence|rewrite Hp in Hb];
    (destruct Hb as [?|[?|(s & ? & ?)]]; [done|done|by simplify_eq]).
Qed.

Lemma blank_optional_trim v :
  blank v → ∃ w, optional_trim v = Normal w ∧ truthy w = false.
Proof.
  intros [->|[->|(s & -> & Hs)]]; [by exists undefined..|].
  exists (JStr (trim s)). split; [done|]. by apply truthy_JStr_false.
Qed.

Lemma textual_optional_trim v :
  textual v → blank v ∨ ∃ s, v = JStr s ∧ optional_trim v = Normal (JStr (trim s)) ∧
                             truthy (JStr (trim s)) = true.
Proof.
  intros [->|[->|(s & ->)]]; [left; by left | left; right; by left|].
  destruct (decide (trim s = "")) as [Hs|Hs].
  - left. right. right. by exists s.
  - right. exists s. split_and!; [done..|]. by apply truthy_JStr.
Qed.

Lemma register_match_missing_textual b uuid t1 t2 :
  textual (body_hostName b) → textual (body_proxyAddress b) → textual (body_map b) →
  missing_field b → register_match b uuid t1 t2 = Normal None.
Proof.
  destruct b as [h a port p mp]. unfold missing_field, register_match, register_guard. simpl.
  intros Hh Ha Hp Hmiss.
  destruct (textual_optional_trim h Hh) as [Hbh|(sh & -> & Hoh & Hth)].
  { destruct (blank_optional_trim h Hbh) as (w & -> & Hw). simpl. by rewrite Hw. }
  rewrite Hoh. simpl in Hth |- *. rewrite Hth. simpl.
  destruct (textual_optional_trim a Ha) as [Hba|(sa & -> & Hoa & Hta)].
  { destruct (blank_optional_trim a Hba) as (w & -> & Hw). simpl. by rewrite Hw. }
  rewrite Hoa. simpl in Hta |- *. rewrite Hta. simpl.
  destruct (truthy port) eqn:Hport; simpl; [|done].
  destruct (textual_optional_trim p Hp) as [Hbp|(sp & -> & Hop & Htp)].
  { destruct (blank_optional_trim p Hbp) as (w & -> & Hw). simpl. by rewrite Hw. }
  exfalso. destruct Hmiss as [Hb|[Hb|[Hb|Hb]]]; [| |done|].
  - destruct Hb as [?|[?|(s & ? & Hs)]]; [done..|]. simplify_eq.
    apply truthy_JStr in Hth. done.
  - destruct Hb as [?|[?|(s & ? & Hs)]]; [done..|]. simplify_eq.
    apply truthy_JStr in Hta. done.
  - destruct Hb as [?|[?|(s & ? & Hs)]]; [done..|]. simplify_eq.
    apply truthy_JStr in Htp. done.
Qed.

(** A body with a missing field never creates a match: the handler answers
    400, or 500 when a TypeError escapes, and [matches] is as before. *)
Lemma register_handler_missing ms b uuid t1 t2 :
  missing_field b →
  let r := register_handler ms b uuid t1 t2 in
  r.1 = ms ∧ ¬ Success r.2 ∧ (status r.2 = 400 ∨ status r.2 = 500) ∧
  (textual (body_hostName b) → textual (body_proxyAddress b) → textual (body_map b) →
   ValidationError r.2).
Proof.
  intros Hmiss. simpl. unfold register_handler, Success, ValidationError.
  destruct (register_match b uuid t1 t2) as [[m|]|] eqn:Hreg; simpl.
  - by apply register_match_missing in Hreg.
  - split_and!; [done|done|by left|done].
  - split_and!; [done|done|by right|].
    intros Hh Ha Hp. by rewrite register_match_missing_textual in Hreg.
Qed.

(** C2, the claim as stated fails: a [proxyPort] that is present but not
    coercible to an integer ([parseInt] gives [NaN]) is accepted, and the
    match is stored with [proxyPort = NaN]. *)
Lemma C2_non_integer_port_accepted :
  let b := with_proxyPort (JStr "abc") alice in
  let r := register_handler [] b uuid_a 1000 1000 in
  body_proxyPort b ≠ undefined ∧
  parseInt (body_proxyPort b) = NaN ∧
  Success r.2 ∧ ¬ ValidationError r.2 ∧
  m_proxyPort <$> Map_get r.1 uuid_a = Some NaN.
Proof. vm_compute. split_and!; done. Qed.

(** C2, amended: the guard tests [proxyPort] for truthiness only.  When it
    is absent or otherwise falsy ([null], [false], [0], [NaN], the empty
    string) the call is rejected and no match is created; the rejection is a
    ValidationError when [hostName] and [proxyAddress] are absent or text.
    A truthy [proxyPort] (a boolean, a number or a string) is accepted whether
    or not it is coercible to an integer: the call succeeds exactly when
    [hostName], [proxyAddress] and [map] are strings with a character that is
    not white space and [proxyPort] is truthy.  On every successful call the
    stored [proxyPort] is [parseInt] of the caller's value: [NaN] exactly when
    the value's text has no integer prefix, and otherwise the Number for that
    integer, which is the integer itself below 2^53. *)
Theorem C2_proxyPort_tested_for_truthiness ms b uuid t1 t2 :
  let r := register_handler ms b uuid t1 t2 in
  (truthy (body_proxyPort b) = false →
     r.1 = ms ∧ ¬ Success r.2 ∧
     (textual (body_hostName b) → textual (body_proxyAddress b) → ValidationError r.2)) ∧
  (Success r.2 ↔
     nonblank_text (body_hostName b) ∧ nonblank_text (body_proxyAddress b) ∧
     truthy (body_proxyPort b) = true ∧ nonblank_text (body_map b)) ∧
  (nonblank_text (body_hostName b) → nonblank_text (body_proxyAddress b) →
   nonblank_text (body_map b) → truthy (body_proxyPort b) = true →
   mathInt (body_proxyPort b) = None →
     Success r.2 ∧ ∃ m, Map_get r.1 uuid = Some m ∧ m_proxyPort m = NaN) ∧
  (Success r.2 →
     ∃ m, r.1 = Map_set ms uuid m ∧ Map_get r.1 uuid = Some m ∧
          m_proxyPort m = parseInt (body_proxyPort b) ∧
          (m_proxyPort m = NaN ↔ mathInt (body_proxyPort b) = None) ∧
          (∀ n, mathInt (body_proxyPort b) = Some n →
                m_proxyPort m = Number_of_Z n ∧
                (Z.abs n < 2 ^ 53 → m_proxyPort m = Num n))).
Proof.
  simpl.
  assert (Success (register_handler ms b uuid t1 t2).2 →
    ∃ m, (register_handler ms b uuid t1 t2).1 = Map_set ms uuid m ∧
         Map_get (register_handler ms b uuid t1 t2).1 uuid = Some m ∧
         m_proxyPort m = parseInt (body_proxyPort b)) as Hstored.
  { intros [m Hreg]%register_handler_Success.
    rewrite (register_handler_ok _ _ _ _ _ _ Hreg). simpl.
    apply register_match_Some in Hreg as (h & a & p & _ & _ & _ & _ & _ & _ & _ & ->).
    eexists. split_and!; [done|apply Map_get_set_eq|done]. }
  split_and!.
  - intros Hport.
    destruct (register_handler_missing ms b uuid t1 t2) as (Hms & Hns & _ & _).
    { right. right. by left. }
    split_and!; [done..|].
    intros Hh Ha. unfold register_handler, ValidationError.
    destruct b as [h a port p mp]. unfold register_match, register_guard. simpl in *.
    destruct (textual_optional_trim h Hh) as [Hbh|(sh & -> & Hoh & Hth)].
    { destruct (blank_optional_trim h Hbh) as (w & -> & Hw). simpl. by rewrite Hw. }
    rewrite Hoh. simpl in Hth |- *. rewrite Hth. simpl.
    destruct (textual_optional_trim a Ha) as [Hba|(sa & -> & Hoa & Hta)].
    { destruct (blank_optional_trim a Hba) as (w & -> & Hw). simpl. by rewrite Hw. }
    rewrite Hoa. simpl in Hta |- *. rewrite Hta. simpl. by rewrite Hport.
  - apply register_handler_Success_iff.
  - intros Hh Ha Hp Hport Hnone.
    assert (Success (register_handler ms b uuid t1 t2).2) as Hok
      by (by apply register_handler_Success_iff).
    split; [done|]. destruct (Hstored Hok) as (m & _ & Hget & Hm).
    exists m. split; [done|]. rewrite Hm. by apply parseInt_NaN.
  - intros Hok. destruct (Hstored Hok) as (m & Hset & Hget & Hm).
    exists m. split_and!; [done..| |].
    + rewrite Hm. apply parseInt_NaN.
    + intros n Hn. rewrite Hm, parseInt_mathInt, Hn.
      split; [done|]. apply Number_of_Z_safe.
Qed.

Lemma C2_proxyPort_tested_for_truthiness_witness :
  let r0 := register_handler [] (with_proxyPort (JNum (Num 0)) alice) uuid_a 1000 1000 in
  let r1 := register_handler [] (with_proxyPort (JStr "abc") alice) uuid_a 1000 1000 in
  let r2 := register_handler [] (with_proxyPort (JStr "8080/tcp") alice) uuid_a 1000 1000 in
  (r0.1 = [] ∧ ValidationError r0.2) ∧
  (Success r1.2 ∧ ∃ m, Map_get r1.1 uuid_a = Some m ∧ m_proxyPort m = NaN) ∧
  (Success r2.2 ∧ ∃ m, Map_get r2.1 uuid_a = Some m ∧ m_proxyPort m = Num 8080).
Proof.
  assert (∀ s c t, s = String c t → isWhiteSpace c = false → nonblank_text (JStr s))
    as Htext.
  { intros s c t -> Hc. exists (String c t). split; [reflexivity|].
    apply Exists_cons_hd. exact Hc. }
  simpl. split; [|split].
  - destruct (C2_proxyPort_tested_for_truthiness [] (with_proxyPort (JNum (Num 0)) alice)
                uuid_a 1000 1000) as (H0 & _).
    destruct (H0 eq_refl) as (Hms & _ & Hval).
    split; [exact Hms|]. apply Hval; right; right; eexists; reflexivity.
  - destruct (C2_proxyPort_tested_for_truthiness [] (with_proxyPort (JStr "abc") alice)
                uuid_a 1000 1000) as (_ & _ & H1 & _).
    apply H1; try reflexivity; eapply Htext; reflexivity.
  - destruct (C2_proxyPort_tested_for_truthiness [] (with_proxyPort (JStr "8080/tcp") alice)
                uuid_a 1000 1000) as (_ & Hiff & _ & H2).
    assert (Success (register_handler [] (with_proxyPort (JStr "8080/tcp") alice)
                       uuid_a 1000 1000).2) as Hok.
    { apply Hiff. split_and!; try reflexivity; eapply Htext; reflexivity. }
    split; [exact Hok|].
    destruct (H2 Hok) as (m & _ & Hget & _ & _ & Hn).
    exists m. split; [exact Hget|].
    destruct (Hn 8080 eq_refl) as [_ Hsafe]. apply Hsafe. reflexivity.
Defined.

(** C5, the claim as stated fails in two ways.  A [proxyPort] that is empty
    after trimming, such as a single space, is truthy and passes the guard:
    the call succeeds and a match is created.  And when [hostName] is not
    text (here a number), the optional chain raises a TypeError before a later
    missing field is looked at: the call is rejected with 500, not with a
    ValidationError. *)
Lemma C5_blank_port_accepted :
  let b := with_proxyPort (JStr " ") alice in
  let r := register_handler [] b uuid_a 1000 1000 in
  let b' := with_map undefined (with_hostName (JNum (Num 5)) alice) in
  let r' := register_handler [] b' uuid_a 1000 1000 in
  (trim " " = "" ∧ Success r.2 ∧ Map_size r.1 = 1%nat) ∧
  (body_map b' = undefined ∧ status r'.2 = 500 ∧ ¬ ValidationError r'.2).
Proof. vm_compute. split_and!; done. Qed.

(** C5, amended: for every register call in which [hostName],
    [proxyAddress] or [map] is absent, [null] or empty after trimming, or
    [proxyPort] is absent or otherwise falsy (not trimmed), the call is
    rejected and no match is created (the registry, hence its size, is
    unchanged); the rejection is a ValidationError whenever the three text
    fields are absent or text. *)
Theorem C5_missing_field_rejected ms b uuid t1 t2 :
  missing_field b →
  let r := register_handler ms b uuid t1 t2 in
  r.1 = ms ∧ Map_size r.1 = Map_size ms ∧ ¬ Success r.2 ∧
  (textual (body_hostName b) → textual (body_proxyAddress b) → textual (body_map b) →
   ValidationError r.2).
Proof.
  intros Hmiss. simpl.
  destruct (register_handler_missing ms b uuid t1 t2 Hmiss) as (Hms & Hns & _ & Hval).
  split_and!; [done|by rewrite Hms|done|done].
Qed.

Lemma C5_missing_field_rejected_witness :
  let b := with_map (JStr "  ") alice in
  let r := register_handler [] b uuid_a 1000 1000 in
  missing_field b ∧ r.1 = [] ∧ ValidationError r.2.
Proof.
  simpl.
  assert (missing_field (with_map (JStr "  ") alice)) as Hmiss.
  { right. right. right. right. right. exists "  ". split; reflexivity. }
  split; [exact Hmiss|].
  destruct (C5_missing_field_rejected [] (with_map (JStr "  ") alice) uuid_a 1000 1000 Hmiss)
    as (Hms & _ & _ & Hval).
  split; [exact Hms|].
  apply Hval; right; right; eexists; reflexivity.
Defined.

(** ** C3: the rate limiter *)

(** C3.  For a fixed (identity, path) key:
    - one call appends the current timestamp to the key's history, keeps
      exactly the entries less than 60 000 ms old, and denies iff more than 15
      entries are kept; the current timestamp is always among them, so a
      denied attempt consumes a slot too; no other key changes;
    - over calls at non-decreasing times, a call is denied iff the window
      ending at its time holds more than 15 of the calls made so far;
    - hence in a burst that fits in one window the first 15 calls are admitted
      and the 16th (and every later one) is denied;
    - and a call made when every earlier timestamp has left the window is
      admitted again. *)
Theorem C3_rate_limiter :
  (∀ rl ip path now,
     let key := limiter_key ip path in
     let r := rateLimiter rl ip path now in
     history r.1 key = window now (history rl key ++ [now])%list ∧
     (∀ t, t ∈ history r.1 key ↔ (t ∈ history rl key ∨ t = now) ∧ now - t < 60000) ∧
     now ∈ history r.1 key ∧
     (is_Some r.2 ↔ (15 < length (history r.1 key))%nat) ∧
     (∀ res, r.2 = Some res → RateLimitExceeded res) ∧
     (∀ k, k ≠ key → r.1 !! k = rl !! k)) ∧
  (∀ rl ip path ts i t,
     StronglySorted Z.le ts → ts !! i = Some t →
     limiter_trace rl ip path ts !! i =
       Some (bool_decide
               (15 < length (window t (history rl (limiter_key ip path) ++ take (S i) ts)%list))%nat)) ∧
  (∀ rl ip path ts a b,
     StronglySorted Z.le ts →
     head ts = Some a → last ts = Some b → b - a < 60000 →
     Forall (λ u, 60000 ≤ a - u) (history rl (limiter_key ip path)) →
     limiter_trace rl ip path ts = (λ i, bool_decide (15 ≤ i)%nat) <$> seq 0 (length ts)) ∧
  (∀ rl ip path now,
     Forall (λ u, 60000 ≤ now - u) (history rl (limiter_key ip path)) →
     (rateLimiter rl ip path now).2 = None).
Proof.
  split_and!.
  - intros rl ip path now. simpl.
    pose proof (rateLimiter_history rl ip path now) as Hh.
    assert (∀ t, t ∈ history (rateLimiter rl ip path now).1 (limiter_key ip path) ↔
                 (t ∈ history rl (limiter_key ip path) ∨ t = now) ∧ now - t < 60000) as Hin.
    { intros t. rewrite Hh. unfold window. rewrite list_elem_of_filter, elem_of_app.
      rewrite list_elem_of_singleton. tauto. }
    split_and!; [done|done| | | |].
    + apply Hin. split; [by right | lia].
    + rewrite Hh. apply rateLimiter_denied.
    + intros res. pose proof (rateLimiter_eq rl ip path now) as Heq. simpl in Heq.
      rewrite Heq. simpl. destruct (_ <? _)%nat; [|done]. by intros [= <-].
    + intros k. apply rateLimiter_other_keys.
  - intros. by apply limiter_trace_lookup.
  - intros rl ip path ts a b Hsorted Ha Hb Hab Hold.
    apply list_eq. intros i. rewrite list_lookup_fmap.
    destruct (ts !! i) as [t|] eqn:Hi.
    + rewrite (limiter_trace_burst rl ip path ts a b i t) by done.
      rewrite lookup_seq_lt by (by eapply lookup_lt_Some). done.
    + apply lookup_ge_None in Hi.
      rewrite lookup_seq_ge by done. simpl.
      apply lookup_ge_None. by rewrite limiter_trace_length.
  - intros rl ip path now Hold. by rewrite rateLimiter_admitted_again.
Qed.

(** Sixteen calls one second apart: the 16th is the first one denied.  A
    call a minute after the last recorded one is admitted.  And a denied
    attempt counts: after 15 calls at time 0 and 15 (denied) calls at 30 000,
    a call at 60 000 is denied although the admitted calls have all left the
    window. *)
Lemma C3_rate_limiter_witness :
  let ts := (λ i, 1000 * Z.of_nat i) <$> seq 0 16 in
  let key := limiter_key "203.0.113.7" "/api/matches/list" in
  limiter_trace ∅ "203.0.113.7" "/api/matches/list" ts = (replicate 15 false ++ [true])%list ∧
  (rateLimiter {[ key := [14000; 15000] ]} "203.0.113.7" "/api/matches/list" 75000).2 = None ∧
  limiter_trace ∅ "203.0.113.7" "/api/matches/list"
    (replicate 15 0 ++ replicate 15 30000 ++ [60000]) !! 30%nat = Some true.
Proof.
  intros ts key. destruct C3_rate_limiter as (_ & Hlookup & Hburst & Hagain). split_and!.
  - rewrite (Hburst ∅ "203.0.113.7" "/api/matches/list" ts 0 15000); try reflexivity.
    + repeat constructor; vm_compute; congruence.
    + constructor.
  - apply Hagain. unfold history. rewrite lookup_singleton_eq.
    repeat constructor; vm_compute; congruence.
  - rewrite (Hlookup ∅ "203.0.113.7" "/api/matches/list" _ 30%nat 60000); try reflexivity.
    repeat constructor; vm_compute; congruence.
Defined.

(** ** C6: heartbeat *)

(** C6.  Heartbeat fails with NotFoundError iff no match is stored under the
    id, and then changes nothing.  Otherwise it succeeds: the match under the
    id gets [lastHeartbeat = now] and keeps every other field, every other
    match is as before, and the keys keep their order. *)
Theorem C6_heartbeat_frame ms id now :
  let r := heartbeat_handler ms id now in
  (NotFoundError r.2 ↔ find_match ms id = None) ∧
  (find_match ms id = None → r.1 = ms) ∧
  (∀ k m, key_of id = Some k → Map_get ms k = Some m →
     Success r.2 ∧
     (∃ m', Map_get r.1 k = Some m' ∧
            m_lastHeartbeat m' = now ∧
            m_id m' = m_id m ∧ m_hostName m' = m_hostName m ∧
            m_proxyAddress m' = m_proxyAddress m ∧ m_proxyPort m' = m_proxyPort m ∧
            m_map m' = m_map m ∧ m_maxPlayers m' = m_maxPlayers m ∧
            m_playersConnected m' = m_playersConnected m ∧
            m_createdAt m' = m_createdAt m) ∧
     (∀ k', k' ≠ k → Map_get r.1 k' = Map_get ms k') ∧
     Map_keys r.1 = Map_keys ms).
Proof.
  simpl. split_and!.
  - unfold find_match, heartbeat_handler, NotFoundError.
    destruct (key_of id) as [k|]; simpl; [|done].
    destruct (Map_get ms k) as [m|]; simpl; [|done].
    split; [lia | done].
  - intros Hnone. by rewrite heartbeat_handler_missing.
  - intros k m Hk Hget. rewrite (heartbeat_handler_found ms id now k m) by done. simpl.
    split_and!; [done| | |].
    + exists (set_lastHeartbeat now m). by rewrite Map_get_set_eq.
    + intros k' Hne. by rewrite Map_get_set_ne.
    + apply Map_keys_set_present. by rewrite Hget.
Qed.

Lemma C6_heartbeat_frame_witness :
  let ms := matches (run initial two_hosts) in
  Success (heartbeat_handler ms (JStr uuid_a) 5000).2 ∧
  Map_get (heartbeat_handler ms (JStr uuid_a) 5000).1 uuid_b = Map_get ms uuid_b.
Proof.
  intros ms.
  destruct (C6_heartbeat_frame ms (JStr uuid_a) 5000) as (_ & _ & Hok).
  destruct (Map_get ms uuid_a) as [m|] eqn:Hget; [|vm_compute in Hget; discriminate].
  destruct (Hok uuid_a m eq_refl Hget) as (Hs & _ & Hother & _).
  split; [exact Hs|]. apply Hother. vm_compute. discriminate.
Defined.

(** ** C9: the listing is bounded, uses one clock reading, and is a pure read *)

(** C9.  The list handler leaves [matches] as it is; it returns at most 100
    views (exactly 100 when more than 100 matches are active), [total] is the
    length of the returned sequence, and the one reading [now] is the returned
    timestamp, the time of the activity filter and the time from which each
    view's [age] and [isRecent] are computed. *)
Theorem C9_list_bounded_single_clock ms now :
  let r := list_handler ms now in
  r.1 = ms ∧
  ∃ vs, r.2 = respond 200 (ListJson vs (length vs) now) ∧
        (length vs ≤ 100)%nat ∧
        length vs = (100 `min` length (filter (active now) (Map_values ms)))%nat ∧
        ∀ v, v ∈ vs →
             ∃ m, m ∈ Map_values ms ∧ now - m_lastHeartbeat m < 120000 ∧
                  v_id v = m_id m ∧
                  v_age v = (now - m_createdAt m) / 1000 / 60 ∧
                  60000 * v_age v ≤ now - m_createdAt m < 60000 * (v_age v + 1) ∧
                  v_isRecent v = bool_decide (now - m_lastHeartbeat m < 30000).
Proof.
  simpl. split; [done|]. exists (activeMatches ms now). split; [done|].
  rewrite activeMatches_eq at 1 2. rewrite length_take, length_fmap.
  split_and!; [lia|done|].
  intros v (k & m & Hin & Hact & ->)%activeMatches_elem.
  exists m. pose proof (view_age_floor now m) as [Hlo Hhi].
  split_and!; try done.
  unfold Map_values. apply list_elem_of_fmap. by exists (k, m).
Qed.

(** ** C10: maxPlayers is not validated *)

(** C10.  The outcome of a register call does not depend on [maxPlayers];
    on success the stored [maxPlayers] is the caller's value as it came, of
    whatever kind (a number with a fraction, a negative number, a string,
    [null], a boolean), and 8 only when the property is absent.  The listing
    echoes the stored value: every view of the match carries it, and the
    match is in the listing, with that value, whenever it is active and no
    more than 100 matches are. *)
Theorem C10_maxPlayers_stored_verbatim ms b uuid t1 t2 :
  let r := register_handler ms b uuid t1 t2 in
  let stored :=
    if decide (body_maxPlayers b = undefined) then JNum (Num 8) else body_maxPlayers b in
  (∀ v, status (register_handler ms (with_maxPlayers v b) uuid t1 t2).2 = status r.2) ∧
  (Success r.2 →
     ∃ m, Map_get r.1 uuid = Some m ∧
          m_maxPlayers m = stored ∧
          (∀ now, v_maxPlayers (view now m) = m_maxPlayers m) ∧
          (wf_matches ms → ∀ now v,
             v ∈ activeMatches r.1 now → v_id v = uuid → v_maxPlayers v = m_maxPlayers m) ∧
          (∀ now,
             now - t2 < 120000 →
             (length (filter (active now) (Map_values r.1)) ≤ 100)%nat →
             ∃ v, v ∈ activeMatches r.1 now ∧ v_id v = uuid ∧ v_maxPlayers v = stored)).
Proof.
  simpl. split.
  - intros v. rewrite !register_handler_status. by destruct b.
  - intros [m Hreg]%register_handler_Success.
    rewrite (register_handler_ok _ _ _ _ _ _ Hreg). simpl.
    exists m. split; [apply Map_get_set_eq|].
    apply register_match_Some in Hreg as Hm.
    destruct Hm as (h & a & p & _ & _ & _ & _ & _ & _ & _ & Hm).
    assert (m_maxPlayers m =
            if decide (body_maxPlayers b = undefined) then JNum (Num 8)
            else body_maxPlayers b) as Hstored.
    { rewrite Hm. simpl. by destruct (body_maxPlayers b). }
    split_and!.
    + done.
    + done.
    + intros Hwf now v (k & m' & Hin & _ & ->)%activeMatches_elem Hid. simpl in Hid.
      assert (wf_matches (Map_set ms uuid m)) as [Hnd Hids].
      { apply wf_matches_set; [done|]. rewrite Hm. reflexivity. }
      assert (k = uuid) as ->.
      { pose proof (Hids k m' Hin) as Hk. congruence. }
      pose proof (Map_get_elem_NoDup _ _ _ Hnd Hin) as Hget.
      rewrite Map_get_set_eq in Hget. assert (m' = m) as -> by congruence. done.
    + intros now Hnow Hsize. exists (view now m). split_and!.
      * rewrite activeMatches_eq, take_ge by (by rewrite length_fmap).
        apply list_elem_of_fmap. exists m. split; [done|].
        apply list_elem_of_filter. split.
        -- unfold active. rewrite Hm. simpl. done.
        -- eapply Map_get_values, Map_get_set_eq.
      * rewrite Hm. reflexivity.
      * simpl. exact Hstored.
Qed.

Lemma C10_maxPlayers_stored_verbatim_witness :
  let listed v :=
    ∃ w, w ∈ activeMatches (register_handler (register_handler [] bob uuid_b 2000 2000).1
                              (with_maxPlayers v alice) "c" 3000 3000).1 4000 ∧
         v_id w = "c" ∧ v_maxPlayers w = v in
  listed (JNum (Other "2.5")) ∧ listed (JNum (Num (-3))) ∧ listed (JStr "many") ∧
  listed null.
Proof.
  assert (∀ v, v ≠ undefined →
    ∃ w, w ∈ activeMatches (register_handler (register_handler [] bob uuid_b 2000 2000).1
                              (with_maxPlayers v alice) "c" 3000 3000).1 4000 ∧
         v_id w = "c" ∧ v_maxPlayers w = v) as Hlisted.
  { intros v Hv.
    destruct (C10_maxPlayers_stored_verbatim (register_handler [] bob uuid_b 2000 2000).1
                (with_maxPlayers v alice) "c" 3000 3000) as [_ Hok].
    destruct (Hok eq_refl) as (m & _ & _ & _ & _ & Hin).
    destruct (Hin 4000) as (w & Hw & Hid & Hmp).
    - reflexivity.
    - vm_compute. lia.
    - exists w. split; [exact Hw|]. split; [exact Hid|]. rewrite Hmp.
      simpl. destruct (decide (v = undefined)) as [Heq|_]; [by destruct Hv | reflexivity]. }
  cbv beta zeta. split_and!; apply Hlisted; discriminate.
Defined.

(** ** C7: what a successful register call stores *)




(** ** C8: after unregister, and on unknown ids *)

Lemma dispatch_absent ms r k :
  Map_get ms k = None → ¬ draws k r → Map_get (dispatch ms r).1 k = None.
Proof.
  intros Hnone Hdraw. destruct r as [b uuid t1 t2|id now| |id| | |]; simpl in *; try done.
  - unfold register_handler.
    destruct (register_match b uuid t1 t2) as [[m|]|]; simpl; [|done..].
    by rewrite Map_get_set_ne.
  - unfold heartbeat_handler. destruct (key_of id) as [k'|]; [|done].
    destruct (Map_get ms k') as [m|] eqn:Hget; [|done]. simpl.
    rewrite Map_get_set_ne; [done | congruence].
  - unfold unregister_handler, Map_delete. destruct (key_of id) as [k'|]; [|done].
    assert (Map_get (Map_remove ms k') k = None) as Hrem.
    { destruct (decide (k' = k)) as [->|Hne].
      - by rewrite Map_remove_absent.
      - by rewrite Map_get_remove_ne. }
    by destruct (Map_has ms k').
Qed.

Lemma app_absent s req k :
  Map_get (matches s) k = None → ¬ draws k (req_route req) →
  Map_get (matches (app s req).1) k = None.
Proof.
  intros Hnone Hdraw. destruct (app_matches s req) as [-> | ->]; [done|].
  by apply dispatch_absent.
Qed.

Lemma run_absent s reqs k :
  Map_get (matches s) k = None → Forall (λ req, ¬ draws k (req_route req)) reqs →
  Map_get (matches (run s reqs)) k = None.
Proof.
  revert s. induction reqs as [|req reqs IH]; intros s Hnone Hreqs; simpl; [done|].
  apply Forall_cons in Hreqs as [Hreq Hreqs]. by apply IH; [apply app_absent|].
Qed.

Lemma absent_not_listed ms k now :
  wf_matches ms → Map_get ms k = None → k ∉ listed_ids (list_handler ms now).2.
Proof.
  intros [_ Hids] Hnone. simpl.
  intros (v & -> & (k' & m & Hin & _ & ->)%activeMatches_elem)%list_elem_of_fmap.
  simpl in Hnone. rewrite (Hids k' m Hin) in Hnone.
  apply Map_get_None in Hnone. apply Hnone.
  unfold Map_keys. apply list_elem_of_fmap. by exists (k', m).
Qed.

(** C8.  After a successful unregister of an id, and whatever requests
    follow (none of which draws the same identifier again from
    [crypto.randomUUID()]), no listing contains the id and heartbeat and
    unregister on it fail with NotFoundError.  On an id that is not stored,
    heartbeat and unregister fail with NotFoundError and leave the state as it
    is, however often they are repeated. *)
Theorem C8_unregistered_id_is_gone :
  (∀ ms rl k reqs now,
     wf_matches ms →
     Success (unregister_handler ms (JStr k)).2 →
     Forall (λ req, ¬ draws k (req_route req)) reqs →
     let s := run {| matches := (unregister_handler ms (JStr k)).1; rateLimit := rl |} reqs in
     (k ∉ listed_ids (list_handler (matches s) now).2) ∧
     NotFoundError (heartbeat_handler (matches s) (JStr k) now).2 ∧
     NotFoundError (unregister_handler (matches s) (JStr k)).2) ∧
  (∀ ms id now (n : nat),
     find_match ms id = None →
     let again :=
       Nat.iter n (λ ms', (unregister_handler (heartbeat_handler ms' id now).1 id).1) ms in
     again = ms ∧
     (heartbeat_handler again id now).1 = ms ∧
     NotFoundError (heartbeat_handler again id now).2 ∧
     (unregister_handler again id).1 = ms ∧
     NotFoundError (unregister_handler again id).2).
Proof.
  split.
  - intros ms rl k reqs now Hwf Hok Hreqs s.
    assert (Map_get (unregister_handler ms (JStr k)).1 k = None) as Hgone.
    { destruct (Map_get ms k) as [m|] eqn:Hget.
      - rewrite (unregister_handler_found ms (JStr k) k m) by done. simpl.
        apply Map_get_remove_eq, Hwf.
      - by rewrite unregister_handler_missing. }
    assert (Map_get (matches s) k = None) as Hnone by (by apply run_absent).
    assert (wf_matches (matches s)) as Hwfs by (by apply wf_run, wf_unregister).
    split_and!.
    + by apply absent_not_listed.
    + by rewrite heartbeat_handler_missing.
    + by rewrite unregister_handler_missing.
  - intros ms id now n Hnone again.
    assert (again = ms) as ->.
    { subst again. induction n as [|n IH]; simpl; [done|].
      rewrite IH, heartbeat_handler_missing by done. simpl.
      by rewrite unregister_handler_missing. }
    rewrite heartbeat_handler_missing, unregister_handler_missing by done.
    done.
Qed.

Lemma C8_unregistered_id_is_gone_witness :
  let ms := matches (run initial two_hosts) in
  let s :=
    run {| matches := (unregister_handler ms (JStr uuid_a)).1; rateLimit := ∅ |}
        [request "/api/matches/heartbeat" 5000 (PostHeartbeat (JStr uuid_b) 5000)] in
  (uuid_a ∉ listed_ids (list_handler (matches s) 6000).2) ∧
  NotFoundError (heartbeat_handler (matches s) (JStr uuid_a) 6000).2 ∧
  NotFoundError (unregister_handler [] (JStr uuid_a)).2.
Proof.
  intros ms s. destruct C8_unregistered_id_is_gone as [Hgone Hunknown].
  destruct (Hgone ms ∅ uuid_a
              [request "/api/matches/heartbeat" 5000 (PostHeartbeat (JStr uuid_b) 5000)] 6000)
    as (Hlist & Hhb & _).
  - apply wf_reachable.
  - vm_compute. reflexivity.
  - repeat constructor. vm_compute. tauto.
  - split; [exact Hlist|]. split; [exact Hhb|].
    exact (proj2 (proj2 (proj2 (proj2 (Hunknown [] (JStr uuid_a) 0 0%nat eq_refl))))).
Defined.

(** ** C4: stale matches are hidden, not purged *)

Lemma filter_values_remove (P : Match → Prop) `{!∀ m, Decision (P m)} ms k m :
  Map_get ms k = Some m → ¬ P m →
  filter P (Map_values (Map_remove ms k)) = filter P (Map_values ms).
Proof.
  unfold Map_values. induction ms as [|[k' m'] ms IH]; csimpl; [done|].
  destruct (decide (k' = k)) as [->|Hne]; intros Hget HP.
  - simplify_eq. by rewrite filter_cons_False.
  - csimpl. rewrite !filter_cons, IH by done. done.
Qed.


Lemma health_active_length ms clock i m :
  Map_values ms !! i = Some m → ¬ clock i - m_lastHeartbeat m < 120000 →
  (length (health_active ms clock) < Map_size ms)%nat.
Proof.
  intros Hi Hstale. unfold health_active, Map_size.
  replace (length ms) with (length (imap pair (Map_values ms)))
    by (by rewrite length_imap; unfold Map_values; rewrite length_fmap).
  apply (length_filter_lt _ _ (i, m)); [|done].
  apply list_elem_of_lookup. exists i. by rewrite list_lookup_imap, Hi.
Qed.

(** No request other than an unregister of the key removes it. *)
Lemma app_keeps_key s req k :
  is_Some (Map_get (matches s) k) → req_route req ≠ PostUnregister (JStr k) →
  is_Some (Map_get (matches (app s req).1) k).
Proof.
  intros Hsome Hroute. destruct (app_matches s req) as [-> | ->]; [done|].
  destruct (req_route req) as [b uuid t1 t2|id now| |id| | |]; simpl; try done.
  - unfold register_handler.
    destruct (register_match b uuid t1 t2) as [[m|]|]; simpl; [|done..].
    destruct (decide (uuid = k)) as [->|Hne].
    + rewrite Map_get_set_eq. eauto.
    + by rewrite Map_get_set_ne.
  - unfold heartbeat_handler. destruct (key_of id) as [k'|]; [|done].
    destruct (Map_get (matches s) k') as [m|] eqn:Hget; [|done]. simpl.
    destruct (decide (k' = k)) as [->|Hne].
    + rewrite Map_get_set_eq. eauto.
    + by rewrite Map_get_set_ne.
  - unfold unregister_handler, Map_delete. destruct (key_of id) as [k'|] eqn:Hk; [|done].
    assert (k' ≠ k) as Hne.
    { intros ->. destruct id; simpl in Hk; simplify_eq. }
    destruct (Map_has (matches s) k'); simpl; by rewrite Map_get_remove_ne.
Qed.

(** C4.  A stored match whose last heartbeat is at least 120 000 ms before
    [now] is not in the listing at [now], is not counted as active by stats at
    [now] nor by health at any later clock readings, and yet stays in storage:
    the three reads leave [matches] unchanged, no request other than an
    unregister of its id removes it, and unregister on its id succeeds. *)
Theorem C4_stale_match_hidden_not_purged ms k m now :
  wf_matches ms → Map_get ms k = Some m → 120000 ≤ now - m_lastHeartbeat m →
  (k ∉ listed_ids (list_handler ms now).2) ∧
  (∃ n, (stats_handler ms now).2 = respond 200 (StatsJson (Map_size ms) n) ∧
        n = length (filter (active now) (Map_values (Map_remove ms k))) ∧
        (n < Map_size ms)%nat) ∧
  (∀ clock, (∀ i, now ≤ clock i) →
     ∃ n, (health_handler ms clock).2 = respond 200 (HealthJson (Map_size ms) n) ∧
          n = length (health_active ms clock) ∧
          (∀ i, (i, m) ∉ health_active ms clock) ∧
          (n < Map_size ms)%nat) ∧
  ((list_handler ms now).1 = ms ∧ (stats_handler ms now).1 = ms ∧
   ∀ clock, (health_handler ms clock).1 = ms) ∧
  (∀ s req, matches s = ms → req_route req ≠ PostUnregister (JStr k) →
     is_Some (Map_get (matches (app s req).1) k)) ∧
  (Success (unregister_handler ms (JStr k)).2 ∧
   (unregister_handler ms (JStr k)).1 = Map_remove ms k ∧
   Map_get (Map_remove ms k) k = None).
Proof.
  intros Hwf Hget Hstale.
  assert (¬ active now m) as Hinactive by (unfold active; lia).
  split_and!.
  - simpl.
    intros (v & Hk & (k' & m' & Hin & Hact & ->)%activeMatches_elem)%list_elem_of_fmap.
    simpl in Hk. destruct Hwf as [Hnd Hids]. rewrite (Hids k' m' Hin) in Hk. subst k'.
    rewrite (Map_get_elem_NoDup _ _ _ Hnd Hin) in Hget. by simplify_eq.
  - eexists. split; [reflexivity|]. split.
    + by rewrite (filter_values_remove (active now) ms k m).
    + unfold Map_size. replace (length ms) with (length (Map_values ms))
        by (unfold Map_values; by rewrite length_fmap).
      apply (length_filter_lt _ _ m); [by eapply Map_get_values | done].
  - intros clock Hclock. eexists. split; [reflexivity|]. split; [done|].
    assert (∀ i, ¬ clock i - m_lastHeartbeat m < 120000) as Hlate.
    { intros i. specialize (Hclock i). lia. }
    split.
    + intros i [Hact _]%list_elem_of_filter. by apply (Hlate i).
    + apply Map_get_values in Hget as Hin.
      apply list_elem_of_lookup in Hin as [i Hi].
      by apply (health_active_length ms clock i m).
  - done.
  - done.
  - done.
  - intros s req <- Hroute. apply app_keeps_key; [by rewrite Hget | done].
  - by rewrite (unregister_handler_found ms (JStr k) k m).
  - by rewrite (unregister_handler_found ms (JStr k) k m).
  - apply Map_get_remove_eq, Hwf.
Qed.

Lemma C4_stale_match_hidden_not_purged_witness :
  let ms := matches (run initial two_hosts) in
  (uuid_a ∉ listed_ids (list_handler ms 121000).2) ∧
  Success (unregister_handler ms (JStr uuid_a)).2.
Proof.
  intros ms.
  destruct (Map_get ms uuid_a) as [m|] eqn:Hget; [|vm_compute in Hget; discriminate].
  assert (m_lastHeartbeat m = 1000) as Hlh.
  { vm_compute in Hget. injection Hget as <-. reflexivity. }
  destruct (C4_stale_match_hidden_not_purged ms uuid_a m 121000)
    as (Hlist & _ & _ & _ & _ & Hun & _).
  - apply wf_reachable.
  - exact Hget.
  - rewrite Hlh. vm_compute. discriminate.
  - split; [exact Hlist | exact Hun].
Defined.

(** * Further properties of the handlers *)

(** ** The register handler: what is accepted and what is stored *)



(** X2.  On a body whose fields are JSON primitives (absent, [null],
    booleans, numbers, strings), the register handler answers 200 exactly when
    [hostName], [proxyAddress] and [map] are strings with a character that is
    not white space and [proxyPort] is truthy; it then stores the trimmed
    strings, and otherwise it stores nothing and answers 400 or 500. *)
Theorem X2_register_accepts_iff ms b uuid t1 t2 :
  let r := register_handler ms b uuid t1 t2 in
  (Success r.2 ↔
     nonblank_text (body_hostName b) ∧ nonblank_text (body_proxyAddress b) ∧
     truthy (body_proxyPort b) = true ∧ nonblank_text (body_map b)) ∧
  (∀ h a p,
     body_hostName b = JStr h → body_proxyAddress b = JStr a → body_map b = JStr p →
     Success r.2 →
     ∃ m, r.1 = Map_set ms uuid m ∧
          m_hostName m = trim h ∧ m_proxyAddress m = trim a ∧ m_map m = trim p) ∧
  (¬ Success r.2 → r.1 = ms ∧ (status r.2 = 400 ∨ status r.2 = 500)).
Proof.
  simpl. split_and!.
  - apply register_handler_Success_iff.
  - intros h a p Hh Ha Hp [m Hreg]%register_handler_Success.
    rewrite (register_handler_ok _ _ _ _ _ _ Hreg). simpl. exists m. split; [done|].
    apply register_match_Some in Hreg
      as (h' & a' & p' & Hh' & _ & Ha' & _ & _ & Hp' & _ & ->).
    simpl. rewrite Hh in Hh'. rewrite Ha in Ha'. rewrite Hp in Hp'.
    by injection Hh' as <-; injection Ha' as <-; injection Hp' as <-.
  - intros Hns. split; [by apply register_handler_rejected|].
    revert Hns. unfold register_handler, Success.
    destruct (register_match b uuid t1 t2) as [[m|]|]; simpl; [done|by left|by right].
Qed.

(** *** What every stored match satisfies *)

Lemma stored_ok_new_match h a port p mp uuid t1 t2 :
  trim h ≠ "" → trim a ≠ "" → trim p ≠ "" →
  stored_ok uuid (new_match h a port p mp uuid t1 t2).
Proof.
  intros Hh Ha Hp. unfold stored_ok. simpl.
  split_and!; try done; try apply trim_idemp. by destruct mp.
Qed.

Lemma stored_ok_set_lastHeartbeat k m t : stored_ok k m → stored_ok k (set_lastHeartbeat t m).
Proof. done. Qed.

Lemma stored_ok_dispatch ms r :
  (∀ k m, (k, m) ∈ ms → stored_ok k m) →
  ∀ k m, (k, m) ∈ (dispatch ms r).1 → stored_ok k m.
Proof.
  intros Hok k m. destruct r as [b uuid t1 t2|id now| |id| | |]; simpl; auto.
  - unfold register_handler.
    destruct (register_match b uuid t1 t2) as [[m'|]|] eqn:Hreg; simpl; auto.
    intros [Heq|Hin]%Map_set_elem; [|by auto]. simplify_eq.
    apply register_match_Some in Hreg as (h & a & p & _ & ? & _ & ? & _ & _ & ? & ->).
    by apply stored_ok_new_match.
  - unfold heartbeat_handler. destruct (key_of id) as [k'|]; [|by auto].
    destruct (Map_get ms k') as [m'|] eqn:Hget; simpl; [|by auto].
    intros [Heq|Hin]%Map_set_elem; [|by auto]. simplify_eq.
    apply stored_ok_set_lastHeartbeat, Hok. by apply Map_get_Some_elem.
  - unfold unregister_handler, Map_delete. destruct (key_of id) as [k'|]; [|by auto].
    destruct (Map_has ms k'); simpl; intros Hin%Map_remove_elem; auto.
Qed.

Lemma stored_ok_run s reqs :
  (∀ k m, (k, m) ∈ matches s → stored_ok k m) →
  ∀ k m, (k, m) ∈ matches (run s reqs) → stored_ok k m.
Proof.
  revert s. induction reqs as [|req reqs IH]; intros s Hok; simpl; [done|].
  apply IH. destruct (app_matches s req) as [-> | ->]; [done|].
  by apply stored_ok_dispatch.
Qed.

(** X3.  In every state the server reaches, whatever the requests were, each
    stored match sits under its own id, has [playersConnected = 0], a
    [maxPlayers] that is not [undefined], and a [hostName], [proxyAddress] and
    [map] that are non-empty and carry no white space at either end. *)
Theorem X3_stored_matches_invariant reqs k m :
  Map_get (matches (run initial reqs)) k = Some m → stored_ok k m.
Proof.
  intros Hget%Map_get_Some_elem. revert Hget. apply stored_ok_run.
  by intros k' m' ?%elem_of_nil.
Qed.

Lemma X3_stored_matches_invariant_witness :
  ∃ m, Map_get (matches (run initial two_hosts)) uuid_b = Some m ∧
       m_hostName m = "Bob" ∧ stored_ok uuid_b m.
Proof.
  destruct (Map_get (matches (run initial two_hosts)) uuid_b) as [m|] eqn:Hget;
    [|vm_compute in Hget; discriminate].
  exists m. split; [reflexivity|]. split.
  - vm_compute in Hget. injection Hget as <-. reflexivity.
  - exact (X3_stored_matches_invariant two_hosts uuid_b m Hget).
Defined.

(** ** The listing: order, completeness and the cut at 100 *)

Lemma listed_ids_eq ms now :
  listed_ids (list_handler ms now).2 =
  take 100 (m_id <$> filter (active now) (Map_values ms)).
Proof.
  change (v_id <$> activeMatches ms now =
          take 100 (m_id <$> filter (active now) (Map_values ms))).
  rewrite activeMatches_eq, fmap_take, <- list_fmap_compose. done.
Qed.

Lemma filter_values_length ms now :
  (length (filter (active now) (Map_values ms)) ≤ Map_size ms)%nat.
Proof.
  unfold Map_size. etrans; [apply length_filter|].
  unfold Map_values. by rewrite length_fmap.
Qed.

(** While at most 100 matches are stored, the listed ids are those of the
    stored active matches. *)
Lemma listed_ids_small ms now k :
  wf_matches ms → (Map_size ms ≤ 100)%nat →
  k ∈ listed_ids (list_handler ms now).2 ↔ ∃ m, Map_get ms k = Some m ∧ active now m.
Proof.
  intros [Hnd Hids] Hsize. rewrite listed_ids_eq.
  rewrite take_ge by (rewrite length_fmap; pose proof (filter_values_length ms now); lia).
  rewrite list_elem_of_fmap. split.
  - intros (m & -> & [Hact Hin]%list_elem_of_filter). exists m. split; [|done].
    unfold Map_values in Hin. apply list_elem_of_fmap in Hin as ([k' m'] & -> & Hin).
    simpl. rewrite (Hids k' m' Hin). by apply Map_get_elem_NoDup.
  - intros (m & Hget & Hact). exists m. split.
    + symmetry. apply (Hids k m). by apply Map_get_Some_elem.
    + apply list_elem_of_filter. split; [done | by eapply Map_get_values].
Qed.

(** X4.  The listing holds the ids of the active matches in the order in
    which they were registered, cut after the first 100.  So while at most 100
    matches are stored, an id is listed exactly when a match is stored under
    it and is active. *)
Theorem X4_listing_in_registration_order ms now :
  listed_ids (list_handler ms now).2 =
    take 100 (m_id <$> filter (active now) (Map_values ms)) ∧
  (wf_matches ms → (Map_size ms ≤ 100)%nat →
   ∀ k, k ∈ listed_ids (list_handler ms now).2 ↔
        ∃ m, Map_get ms k = Some m ∧ active now m).
Proof.
  split; [apply listed_ids_eq|]. intros Hwf Hsize k. by apply listed_ids_small.
Qed.

Lemma X4_listing_in_registration_order_witness :
  let ms := matches (run initial two_hosts) in
  uuid_b ∈ listed_ids (list_handler ms 4000).2.
Proof.
  intros ms.
  destruct (X4_listing_in_registration_order ms 4000) as [_ Hiff].
  destruct (Map_get ms uuid_b) as [m|] eqn:Hget; [|vm_compute in Hget; discriminate].
  apply Hiff.
  - apply wf_reachable.
  - vm_compute. lia.
  - exists m. split; [exact Hget|].
    vm_compute in Hget. injection Hget as <-. vm_compute. reflexivity.
Defined.

(** X5.  A heartbeat brings a stored match back into the listing, stale or
    not: while at most 100 matches are stored, after a heartbeat at [t] the
    match is listed at every [now] less than 120 000 ms after [t], marked
    recent exactly when [now] is less than 30 000 ms after [t], with its age
    still counted from its creation. *)
Theorem X5_heartbeat_revives ms k m t now :
  wf_matches ms → (Map_size ms ≤ 100)%nat →
  Map_get ms k = Some m → now - t < 120000 →
  let ms' := (heartbeat_handler ms (JStr k) t).1 in
  k ∈ listed_ids (list_handler ms' now).2 ∧
  ∀ v, v ∈ activeMatches ms' now → v_id v = k →
       v_isRecent v = bool_decide (now - t < 30000) ∧
       v_age v = (now - m_createdAt m) / 1000 / 60.
Proof.
  intros Hwf Hsize Hget Hnow. simpl.
  rewrite (heartbeat_handler_found ms (JStr k) t k m) by done. simpl.
  assert (wf_matches (Map_set ms k (set_lastHeartbeat t m))) as Hwf'.
  { apply wf_matches_set; [done|]. simpl. by eapply wf_matches_get. }
  assert (Map_size (Map_set ms k (set_lastHeartbeat t m)) = Map_size ms) as Hsize'.
  { unfold Map_size.
    rewrite <- (length_fmap fst (Map_set _ _ _)), <- (length_fmap fst ms).
    change (length (Map_keys (Map_set ms k (set_lastHeartbeat t m))) = length (Map_keys ms)).
    rewrite Map_keys_set_present; [done | by rewrite Hget]. }
  split.
  - apply listed_ids_small; [done|lia|].
    exists (set_lastHeartbeat t m). by rewrite Map_get_set_eq.
  - intros v (k' & m' & Hin & _ & ->)%activeMatches_elem Hid. simpl in Hid.
    destruct Hwf' as [Hnd Hids].
    assert (k' = k) as -> by (pose proof (Hids k' m' Hin); congruence).
    pose proof (Map_get_elem_NoDup _ _ _ Hnd Hin) as Hget'.
    rewrite Map_get_set_eq in Hget'. assert (m' = set_lastHeartbeat t m) as -> by congruence.
    done.
Qed.

Lemma X5_heartbeat_revives_witness :
  let ms := matches (run initial two_hosts) in
  ¬ active 200000 {| m_id := uuid_a; m_hostName := "Alice"; m_proxyAddress := "10.0.0.5";
                     m_proxyPort := Num 7777; m_map := "de_dust2";
                     m_maxPlayers := JNum (Num 8); m_playersConnected := 0;
                     m_createdAt := 1000; m_lastHeartbeat := 1000 |} ∧
  uuid_a ∈ listed_ids (list_handler (heartbeat_handler ms (JStr uuid_a) 190000).1 200000).2.
Proof.
  intros ms. split; [vm_compute; discriminate|].
  refine (proj1 (X5_heartbeat_revives ms uuid_a _ 190000 200000 _ _ _ _)).
  - apply wf_reachable.
  - vm_compute. lia.
  - reflexivity.
  - reflexivity.
Defined.

(** ** Register and unregister: what else they change *)

Lemma Map_remove_app_new {V} (m : Map V) k v :
  Map_get m k = None → Map_remove (m ++ [(k, v)])%list k = m.
Proof.
  induction m as [|[k' v'] m IH]; simpl.
  - intros _. by rewrite decide_True.
  - destruct (decide (k' = k)); [done|]. intros Hnone. by rewrite IH.
Qed.

Lemma filter_all {A} (P : A → Prop) `{!∀ x, Decision (P x)} (l : list A) :
  Forall P l → filter P l = l.
Proof.
  induction 1 as [|x l Hx Hl IH]; [done|]. by rewrite filter_cons_True, IH.
Qed.

Lemma Map_keys_remove {V} (m : Map V) k :
  NoDup (Map_keys m) → Map_keys (Map_remove m k) = filter (λ k', k' ≠ k) (Map_keys m).
Proof.
  unfold Map_keys. induction m as [|[k' v'] m IH]; csimpl; [done|].
  intros [Hk' Hnd]%NoDup_cons. destruct (decide (k' = k)) as [->|Hne]; csimpl.
  - rewrite filter_cons_False by (by intros ?).
    symmetry. apply filter_all.
    apply Forall_forall. intros k' Hin ->. done.
  - rewrite filter_cons_True by done. by rewrite IH.
Qed.

(** X6.  Register followed by unregister of the returned id is a round trip:
    when the id is fresh and the register call succeeds, unregistering it
    succeeds and gives back exactly the registry from before, order
    included; in between, the registry is one entry larger. *)
Theorem X6_register_unregister_round_trip ms b uuid t1 t2 :
  Map_get ms uuid = None →
  Success (register_handler ms b uuid t1 t2).2 →
  let ms' := (register_handler ms b uuid t1 t2).1 in
  Map_size ms' = S (Map_size ms) ∧
  (unregister_handler ms' (JStr uuid)).1 = ms ∧
  Success (unregister_handler ms' (JStr uuid)).2.
Proof.
  intros Hfresh [m Hreg]%register_handler_Success. simpl.
  rewrite (register_handler_ok _ _ _ _ _ _ Hreg), Map_set_absent by done. simpl.
  assert (Map_get (ms ++ [(uuid, m)])%list uuid = Some m) as Hget.
  { rewrite <- (Map_set_absent ms uuid m) by done. apply Map_get_set_eq. }
  rewrite (unregister_handler_found _ (JStr uuid) uuid m) by done. simpl.
  split_and!; [|by apply Map_remove_app_new|done].
  unfold Map_size. rewrite length_app. simpl. lia.
Qed.

Lemma X6_register_unregister_round_trip_witness :
  let ms := matches (run initial two_hosts) in
  (unregister_handler (register_handler ms alice "fresh" 5000 5000).1 (JStr "fresh")).1 = ms.
Proof.
  intros ms.
  exact (proj1 (proj2 (X6_register_unregister_round_trip ms alice "fresh" 5000 5000
                         eq_refl eq_refl))).
Defined.

(** X7.  A successful unregister removes the one entry under the id and
    nothing else: every other id keeps its match, the remaining ids keep
    their order, and the registry is one entry smaller. *)
Theorem X7_unregister_frame ms k :
  wf_matches ms →
  Success (unregister_handler ms (JStr k)).2 →
  let ms' := (unregister_handler ms (JStr k)).1 in
  Map_get ms' k = None ∧
  (∀ k', k' ≠ k → Map_get ms' k' = Map_get ms k') ∧
  Map_keys ms' = filter (λ k', k' ≠ k) (Map_keys ms) ∧
  S (Map_size ms') = Map_size ms.
Proof.
  intros [Hnd Hids] Hok. simpl.
  destruct (Map_get ms k) as [m|] eqn:Hget.
  - rewrite (unregister_handler_found ms (JStr k) k m) by done. simpl.
    split_and!.
    + by apply Map_get_remove_eq.
    + intros k' Hne. by apply Map_get_remove_ne.
    + by apply Map_keys_remove.
    + apply Map_remove_length. by rewrite Hget.
  - rewrite unregister_handler_missing in Hok by done. done.
Qed.

Lemma X7_unregister_frame_witness :
  let ms := matches (run initial two_hosts) in
  Map_keys (unregister_handler ms (JStr uuid_a)).1 = [uuid_b].
Proof.
  intros ms.
  destruct (X7_unregister_frame ms uuid_a) as (_ & _ & Hkeys & _).
  - apply wf_reachable.
  - reflexivity.
  - rewrite Hkeys. reflexivity.
Defined.

(** X8.  The cut at 100 keeps the earliest registrations: when 100 or more
    stored matches are active at [now], a match registered after them under a
    fresh id is stored but not listed at [now]. *)
Theorem X8_new_match_beyond_100_not_listed ms b uuid t1 t2 now :
  wf_matches ms → Map_get ms uuid = None →
  (100 ≤ length (filter (active now) (Map_values ms)))%nat →
  Success (register_handler ms b uuid t1 t2).2 →
  let ms' := (register_handler ms b uuid t1 t2).1 in
  is_Some (Map_get ms' uuid) ∧ uuid ∉ listed_ids (list_handler ms' now).2.
Proof.
  intros [Hnd Hids] Hfresh Hfull [m Hreg]%register_handler_Success. simpl.
  rewrite (register_handler_ok _ _ _ _ _ _ Hreg). simpl.
  split; [rewrite Map_get_set_eq; eauto|].
  rewrite Map_set_absent by done.
  change (uuid ∉ listed_ids (list_handler (ms ++ [(uuid, m)])%list now).2).
  rewrite listed_ids_eq. unfold Map_values.
  rewrite fmap_app, filter_app, fmap_app, take_app_le by (by rewrite length_fmap).
  intros Hin. eapply elem_of_sublist in Hin; [|apply sublist_take].
  apply list_elem_of_fmap in Hin as (m' & -> & [_ Hin]%list_elem_of_filter).
  apply list_elem_of_fmap in Hin as ([k' m''] & -> & Hin). simpl in *.
  rewrite (Hids k' m'' Hin) in Hfresh.
  apply Map_get_None in Hfresh. apply Hfresh.
  unfold Map_keys. apply list_elem_of_fmap. by exists (k', m'').
Qed.

Lemma wf_crowd n : wf_matches (crowd n).
Proof.
  unfold crowd. generalize (seq 0 n). intros l.
  assert (∀ ms, wf_matches ms →
            wf_matches (foldl (λ ms i, (register_handler ms alice (pretty (Z.of_nat i)) 0 0).1)
                          ms l)) as Hgen.
  { induction l as [|i l IH]; intros ms Hwf; [done|].
    change (wf_matches
              (foldl (λ ms i, (register_handler ms alice (pretty (Z.of_nat i)) 0 0).1)
                 (register_handler ms alice (pretty (Z.of_nat i)) 0 0).1 l)).
    by apply IH, wf_register. }
  apply Hgen, wf_matches_nil.
Qed.

Lemma X8_new_match_beyond_100_not_listed_witness :
  let ms' := (register_handler (crowd 100) bob uuid_b 1000 1000).1 in
  is_Some (Map_get ms' uuid_b) ∧ uuid_b ∉ listed_ids (list_handler ms' 2000).2.
Proof.
  intros ms'. apply (X8_new_match_beyond_100_not_listed (crowd 100) bob uuid_b 1000 1000 2000).
  - apply wf_crowd.
  - vm_compute. reflexivity.
  - vm_compute. lia.
  - reflexivity.
Defined.

(** ** Stats and health: the active counts *)

Lemma filter_length_impl {A} (P Q : A → Prop)
    `{!∀ x, Decision (P x)} `{!∀ x, Decision (Q x)} (l : list A) :
  (∀ x, P x → Q x) → (length (filter P l) ≤ length (filter Q l))%nat.
Proof.
  intros HPQ. induction l as [|x l IH]; [done|].
  rewrite !filter_cons. destruct (decide (P x)) as [HP|HP].
  - rewrite decide_True by auto. simpl. lia.
  - destruct (decide (Q x)); simpl; lia.
Qed.

(** The health filter against the stats filter, position by position. *)
Lemma health_filter_le (clock : nat → Z) now (f : nat → nat) (l : list Match) :
  (∀ i, now ≤ clock i) →
  (length (filter (λ im : nat * Match, (clock im.1 - m_lastHeartbeat im.2 < 120000)%Z)
             (imap (λ i m, (f i, m)) l))
   ≤ length (filter (active now) l))%nat.
Proof.
  intros Hclock. revert f. induction l as [|m l IH]; intros f; [done|].
  rewrite imap_cons.
  change ((λ i (m : Match), (f i, m)) ∘ S) with (λ i (m : Match), (f (S i), m)).
  specialize (IH (λ i, f (S i))). cbv beta in IH.
  pose proof (Hclock (f 0%nat)) as H0.
  rewrite !filter_cons. repeat case_decide; unfold active in *; cbn [length fst snd] in *; lia.
Qed.

Lemma health_filter_eq (clock : nat → Z) now (f : nat → nat) (l : list Match) :
  (∀ i, clock i = now) →
  length (filter (λ im : nat * Match, clock im.1 - m_lastHeartbeat im.2 < 120000)
            (imap (λ i m, (f i, m)) l))
  = length (filter (active now) l).
Proof.
  intros Hclock. revert f. induction l as [|m l IH]; intros f; [done|].
  rewrite imap_cons.
  change ((λ i (m : Match), (f i, m)) ∘ S) with (λ i (m : Match), (f (S i), m)).
  specialize (IH (λ i, f (S i))). cbv beta in IH.
  pose proof (Hclock (f 0%nat)) as H0.
  rewrite !filter_cons. repeat case_decide; unfold active in *; cbn [length fst snd] in *; lia.
Qed.

(** X9.  Stats and health both report the number of stored matches and a
    count of active ones that never exceeds it.  The active count only
    falls as the clock advances (no heartbeat in between); health, which
    reads the clock once per match, counts at most what stats counts at an
    earlier reading, and the same when the clock does not move. *)
Theorem X9_active_counts ms now :
  (stats_handler ms now).2 = respond 200 (StatsJson (Map_size ms) (stats_active ms now)) ∧
  (stats_active ms now ≤ Map_size ms)%nat ∧
  (∀ now', now ≤ now' → (stats_active ms now' ≤ stats_active ms now)%nat) ∧
  (∀ clock,
     (health_handler ms clock).2 =
       respond 200 (HealthJson (Map_size ms) (length (health_active ms clock))) ∧
     ((∀ i, now ≤ clock i) → (length (health_active ms clock) ≤ stats_active ms now)%nat) ∧
     ((∀ i, clock i = now) → length (health_active ms clock) = stats_active ms now)).
Proof.
  split_and!.
  - done.
  - apply filter_values_length.
  - intros now' Hle. apply filter_length_impl. unfold active. intros m. lia.
  - intros clock. split_and!; [done| |].
    + intros Hclock. apply (health_filter_le clock now (λ i, i)), Hclock.
    + intros Hclock. apply (health_filter_eq clock now (λ i, i)), Hclock.
Qed.

(** ** The application: the limiter in front of the handlers *)

Lemma dispatch_status ms r :
  status (dispatch ms r).2 = 200 ∨ status (dispatch ms r).2 = 400 ∨
  status (dispatch ms r).2 = 404 ∨ status (dispatch ms r).2 = 500.
Proof.
  destruct r as [b uuid t1 t2|id now| |id| | |]; simpl; auto.
  - unfold register_handler. destruct (register_match b uuid t1 t2) as [[m|]|]; simpl; auto.
  - unfold heartbeat_handler. destruct (key_of id) as [k|]; simpl; auto.
    destruct (Map_get ms k); simpl; auto.
  - unfold unregister_handler, Map_delete. destruct (key_of id) as [k|]; simpl; auto.
    destruct (Map_has ms k); simpl; auto.
Qed.

(** X10.  A request that [cors()] or [express.json] answers ahead of the
    limiter (an OPTIONS preflight, a body that cannot be read) changes
    nothing: it is not recorded by the limiter and never counts against a
    budget.  Every other request, whatever its route, is recorded by the
    limiter.  It is answered 429 exactly when the limiter denies it, and then
    the registry is untouched: no handler runs.  Otherwise the answer and the
    new registry are the handler's, and the status is 200, 400, 404 or 500. *)
Theorem X10_denied_request_never_reaches_handler s req :
  let limited := rateLimiter (rateLimit s) (req_ip req) (req_path req) (req_now req) in
  let r := app s req in
  (req_early req ≠ Next → r.1 = s ∧ json r.2 = NoJson) ∧
  (req_early req = Next →
     rateLimit r.1 = limited.1 ∧
     (RateLimitExceeded r.2 ↔ is_Some limited.2) ∧
     (RateLimitExceeded r.2 → matches r.1 = matches s) ∧
     (¬ RateLimitExceeded r.2 →
        (matches r.1, r.2) = dispatch (matches s) (req_route req) ∧
        (status r.2 = 200 ∨ status r.2 = 400 ∨ status r.2 = 404 ∨ status r.2 = 500))).
Proof.
  simpl. unfold app, RateLimitExceeded. split.
  - by destruct (req_early req).
  - intros ->.
    pose proof (rateLimiter_eq (rateLimit s) (req_ip req) (req_path req) (req_now req))
      as Heq.
    simpl in Heq. rewrite Heq. clear Heq.
    pose proof (dispatch_status (matches s) (req_route req)) as Hst.
    destruct (_ <? _)%nat; simpl.
    + split_and!; [done| |done|done]. split; [eauto|done].
    + destruct (dispatch (matches s) (req_route req)) as [ms res]. simpl in *.
      split_and!; [done| | |done].
      * split; [lia | by intros [? ?]].
      * lia.
Qed.

(** ** The limiter: separate budgets, and no cap on what it records *)

Lemma string_app_inj_l (s a b : string) : s +:+ a = s +:+ b → a = b.
Proof.
  induction s as [|c s IH]; [done|]. rewrite !string_app_cons. intros [= Heq]. auto.
Qed.

Lemma limiter_key_cons c ip path : limiter_key (String c ip) path = String c (limiter_key ip path).
Proof. reflexivity. Qed.

Lemma limiter_key_inj ip1 ip2 path1 path2 :
  no_slash ip1 → no_slash ip2 → rooted path1 → rooted path2 →
  limiter_key ip1 path1 = limiter_key ip2 path2 → ip1 = ip2 ∧ path1 = path2.
Proof.
  intros H1 H2 [r1 ->] [r2 ->]. revert ip2 H1 H2.
  induction ip1 as [|c1 ip1 IH]; intros [|c2 ip2] H1 H2 Heq.
  - by injection Heq as ->.
  - exfalso. rewrite limiter_key_cons in Heq. injection Heq as <- Heq.
    destruct ip2 as [|c3 ip2]; [done|].
    rewrite limiter_key_cons in Heq. injection Heq as <- _.
    apply H2. unfold no_slash. simpl. right. left.
  - exfalso. rewrite limiter_key_cons in Heq. injection Heq as -> Heq.
    destruct ip1 as [|c3 ip1]; [done|].
    rewrite limiter_key_cons in Heq. injection Heq as -> _.
    apply H1. simpl. right. left.
  - rewrite !limiter_key_cons in Heq. injection Heq as -> Heq.
    destruct (IH ip2) as [-> ?]; [| |done|done].
    + intros Hin. apply H1. simpl. by right.
    + intros Hin. apply H2. simpl. by right.
Qed.

(** A call on another key changes neither the history nor the next decision
    of this key. *)
Lemma rateLimiter_commute rl ip path now ip' path' now' :
  limiter_key ip' path' ≠ limiter_key ip path →
  history (rateLimiter rl ip' path' now').1 (limiter_key ip path) =
    history rl (limiter_key ip path) ∧
  (rateLimiter (rateLimiter rl ip' path' now').1 ip path now).2 =
    (rateLimiter rl ip path now).2.
Proof.
  intros Hne.
  assert (history (rateLimiter rl ip' path' now').1 (limiter_key ip path) =
          history rl (limiter_key ip path)) as Hh.
  { unfold history. by rewrite rateLimiter_other_keys. }
  split; [done|].
  pose proof (rateLimiter_eq (rateLimiter rl ip' path' now').1 ip path now) as Heq1.
  pose proof (rateLimiter_eq rl ip path now) as Heq2.
  simpl in Heq1, Heq2. rewrite Heq1, Heq2, Hh. done.
Qed.

(** X11.  Budgets are per (identity, path): two pairs of an identity without
    a slash and a path that starts with one share a key only if they are the
    same pair, and a call on one key changes neither the history nor the next
    decision of any other key.  So the same caller's calls to one route never
    use up its budget on another route. *)
Theorem X11_limiter_budgets_are_separate :
  (∀ ip1 ip2 path1 path2,
     no_slash ip1 → no_slash ip2 → rooted path1 → rooted path2 →
     limiter_key ip1 path1 = limiter_key ip2 path2 → ip1 = ip2 ∧ path1 = path2) ∧
  (∀ rl ip path now ip' path' now',
     limiter_key ip' path' ≠ limiter_key ip path →
     history (rateLimiter rl ip' path' now').1 (limiter_key ip path) =
       history rl (limiter_key ip path) ∧
     (rateLimiter (rateLimiter rl ip' path' now').1 ip path now).2 =
       (rateLimiter rl ip path now).2) ∧
  (∀ rl ip path path' now now',
     path ≠ path' →
     (rateLimiter (rateLimiter rl ip path' now').1 ip path now).2 =
       (rateLimiter rl ip path now).2).
Proof.
  split_and!.
  - apply limiter_key_inj.
  - apply rateLimiter_commute.
  - intros rl ip path path' now now' Hne. apply rateLimiter_commute.
    unfold limiter_key. intros Heq. apply Hne.
    by apply string_app_inj_l, string_app_inj_l in Heq.
Qed.

Lemma X11_limiter_budgets_are_separate_witness :
  limiter_key "::1" "/health" ≠ limiter_key "::1" "/stats" ∧
  (rateLimiter (limiter_run ∅ "::1" "/health" (replicate 20 0)) "::1" "/stats" 0).2 = None.
Proof.
  destruct X11_limiter_budgets_are_separate as (Hinj & _ & Hpath).
  split.
  - intros Heq. apply (Hinj "::1" "::1" "/health" "/stats") in Heq as [_ Heq].
    + discriminate Heq.
    + unfold no_slash. vm_compute. intros Hin.
      repeat (apply elem_of_cons in Hin as [Hin|Hin]; [discriminate Hin|]).
      by apply elem_of_nil in Hin.
    + unfold no_slash. vm_compute. intros Hin.
      repeat (apply elem_of_cons in Hin as [Hin|Hin]; [discriminate Hin|]).
      by apply elem_of_nil in Hin.
    + by eexists.
    + by eexists.
  - assert (∀ n rl, (rateLimiter (limiter_run rl "::1" "/health" (replicate n 0))
                       "::1" "/stats" 0).2 = (rateLimiter rl "::1" "/stats" 0).2) as Hgen.
    { induction n as [|n IH]; intros rl; [reflexivity|].
      change (limiter_run rl "::1" "/health" (replicate (S n) 0))
        with (limiter_run (rateLimiter rl "::1" "/health" 0).1 "::1" "/health" (replicate n 0)).
      rewrite IH. apply Hpath. discriminate. }
    rewrite Hgen. reflexivity.
Defined.

Lemma limiter_run_history rl ip path ts b :
  StronglySorted Z.le ts → last ts = Some b →
  history (limiter_run rl ip path ts) (limiter_key ip path) =
  window b (history rl (limiter_key ip path) ++ ts)%list.
Proof.
  revert rl. induction ts as [|t ts IH]; intros rl Hsorted Hlast; [done|].
  apply StronglySorted_inv in Hsorted as [Hsorted Hle].
  destruct ts as [|t' ts].
  - simpl in Hlast. injection Hlast as <-.
    change (limiter_run rl ip path [t]) with (rateLimiter rl ip path t).1.
    apply rateLimiter_history.
  - change (limiter_run rl ip path (t :: t' :: ts))
      with (limiter_run (rateLimiter rl ip path t).1 ip path (t' :: ts)).
    change (last (t' :: ts) = Some b) in Hlast.
    rewrite (IH _ Hsorted Hlast), rateLimiter_history.
    assert (t ≤ b) as Htb.
    { rewrite Forall_forall in Hle. apply Hle.
      rewrite last_lookup in Hlast. by eapply list_elem_of_lookup_2. }
    rewrite window_app, window_window by done.
    by rewrite <- window_app, <- app_assoc.
Qed.

Lemma app_rateLimit_keeps s req k :
  is_Some (rateLimit s !! k) → is_Some (rateLimit (app s req).1 !! k).
Proof.
  intros Hk. unfold app. destruct (req_early req); [done..|].
  pose proof (rateLimiter_eq (rateLimit s) (req_ip req) (req_path req) (req_now req)) as Heq.
  simpl in Heq. rewrite Heq. clear Heq.
  assert (∀ h, is_Some (<[limiter_key (req_ip req) (req_path req) := h]> (rateLimit s) !! k))
    as Hins.
  { intros h. destruct (decide (limiter_key (req_ip req) (req_path req) = k)) as [->|Hne].
    - rewrite lookup_insert_eq. eauto.
    - by rewrite lookup_insert_ne. }
  destruct (_ <? _)%nat; [apply Hins|].
  destruct (dispatch _ _). apply Hins.
Qed.

(** X12.  The limiter records every call and forgets only by age: after a
    burst of calls that fits in one window, on a key with nothing left in
    that window, the key's history is the whole burst, denied calls included,
    however long it is.  And a key, once in the map, is never removed by any
    request. *)
Theorem X12_limiter_records_without_cap :
  (∀ rl ip path ts a b,
     StronglySorted Z.le ts →
     head ts = Some a → last ts = Some b → b - a < 60000 →
     Forall (λ u, 60000 ≤ a - u) (history rl (limiter_key ip path)) →
     history (limiter_run rl ip path ts) (limiter_key ip path) = ts) ∧
  (∀ s reqs k,
     is_Some (rateLimit s !! k) → is_Some (rateLimit (run s reqs) !! k)).
Proof.
  split.
  - intros rl ip path ts a b Hsorted Ha Hb Hab Hold.
    rewrite (limiter_run_history rl ip path ts b) by done.
    assert (a ≤ b) as Hle.
    { rewrite head_lookup in Ha. rewrite last_lookup in Hb.
      apply (StronglySorted_lookup_le ts 0 (Nat.pred (length ts))); [done|lia|done..]. }
    rewrite window_app, window_none, window_all; [done| |].
    + apply Forall_forall. intros u [j Hj]%list_elem_of_lookup.
      assert (a ≤ u).
      { rewrite head_lookup in Ha.
        apply (StronglySorted_lookup_le ts 0 j); [done|lia|done..]. }
      lia.
    + eapply Forall_impl; [exact Hold|]. simpl. intros u Hu. lia.
  - intros s reqs. revert s. induction reqs as [|req reqs IH]; intros s k Hk; [done|].
    simpl. by apply IH, app_rateLimit_keeps.
Qed.

Lemma X12_limiter_records_without_cap_witness :
  length (history (limiter_run ∅ "::1" "/stats" (replicate 40 0)) (limiter_key "::1" "/stats"))
  = 40%nat.
Proof.
  destruct X12_limiter_records_without_cap as [Hburst _].
  rewrite (Hburst ∅ "::1" "/stats" (replicate 40 0) 0 0); try reflexivity.
  - repeat constructor; vm_compute; congruence.
  - constructor.
Defined.

(** ** The limiter: at most 15 admitted calls per window *)

Lemma limiter_trace_snoc rl ip path ts t :
  limiter_trace rl ip path (ts ++ [t]) =
  (limiter_trace rl ip path ts ++
   [bool_decide (is_Some (rateLimiter (limiter_run rl ip path ts) ip path t).2)])%list.
Proof.
  revert rl. induction ts as [|t0 ts IH]; intros rl.
  - simpl. by destruct (rateLimiter rl ip path t).
  - change ((t0 :: ts) ++ [t])%list with (t0 :: (ts ++ [t]))%list.
    cbn [limiter_trace limiter_run].
    destruct (rateLimiter rl ip path t0) as [rl' d] eqn:Hstep. simpl. by rewrite IH.
Qed.

Lemma admitted_times_snoc rl ip path ts t :
  admitted_times rl ip path (ts ++ [t]) =
  (admitted_times rl ip path ts ++
   if bool_decide (is_Some (rateLimiter (limiter_run rl ip path ts) ip path t).2)
   then [] else [t])%list.
Proof.
  unfold admitted_times. rewrite limiter_trace_snoc.
  rewrite (zip_with_app pair) by (by rewrite limiter_trace_length).
  rewrite filter_app, fmap_app. f_equal. simpl.
  by destruct (bool_decide _).
Qed.

Lemma admitted_times_filter_le (P : Z → Prop) `{!∀ u, Decision (P u)} rl ip path ts :
  (length (filter P (admitted_times rl ip path ts)) ≤ length (filter P ts))%nat.
Proof.
  induction ts as [|t ts IH] using rev_ind; [done|].
  rewrite admitted_times_snoc, !filter_app, !length_app.
  destruct (bool_decide _); simpl; lia.
Qed.

(** When the last call of a run is admitted, the window ending at its time
    holds at most 15 of the run's calls. *)
Lemma admitted_last_window rl ip path ts t :
  StronglySorted Z.le (ts ++ [t]) →
  ¬ is_Some (rateLimiter (limiter_run rl ip path ts) ip path t).2 →
  (S (length (window t ts)) ≤ 15)%nat.
Proof.
  intros Hsorted Hadm. rewrite rateLimiter_denied in Hadm.
  assert (length (window t ts) ≤
          length (window t (history (limiter_run rl ip path ts) (limiter_key ip path))))%nat
    as Hle.
  { destruct (last ts) as [b|] eqn:Hlast.
    - rewrite (limiter_run_history rl ip path ts b);
        [|by eapply StronglySorted_app_1_l|done].
      assert (b ≤ t) as Hbt.
      { eapply (StronglySorted_app_1_elem_of Z.le ts [t]); [done| |by left].
        rewrite last_lookup in Hlast. by eapply list_elem_of_lookup_2. }
      rewrite window_window, window_app, length_app by done. lia.
    - apply last_None in Hlast. subst ts. simpl. lia. }
  rewrite window_app, length_app in Hadm.
  change (length (window t [t])) with (length (filter (λ u, t - u < 60000) [t])) in Hadm.
  rewrite filter_cons_True in Hadm by lia. simpl in Hadm. lia.
Qed.

(** X13.  The guarantee of the limiter: among calls with one identity and
    path at non-decreasing times, whatever the history before them, at most
    15 admitted calls fall in any window of 60 000 ms. *)
Theorem X13_at_most_15_admitted_per_window rl ip path ts (T : Z) :
  StronglySorted Z.le ts →
  (length (filter (λ u, (u ≤ T ∧ T - u < 60000)%Z) (admitted_times rl ip path ts)) ≤ 15)%nat.
Proof.
  induction ts as [|t ts IH] using rev_ind; intros Hsorted; [simpl; lia|].
  specialize (IH (StronglySorted_app_1_l _ _ _ Hsorted)).
  rewrite admitted_times_snoc.
  destruct (bool_decide _) eqn:Hd.
  - by rewrite app_nil_r.
  - apply bool_decide_eq_false in Hd.
    pose proof (admitted_last_window rl ip path ts t Hsorted Hd) as Hwin.
    rewrite filter_app, length_app.
    destruct (decide (t ≤ T ∧ T - t < 60000)) as [[HtT Hin]|Hout].
    + rewrite filter_cons_True by done. simpl.
      pose proof (admitted_times_filter_le (λ u, u ≤ T ∧ T - u < 60000) rl ip path ts).
      assert (length (filter (λ u, (u ≤ T ∧ T - u < 60000)%Z) ts) ≤ length (window t ts))%nat.
      { apply filter_length_impl. intros u. lia. }
      lia.
    + rewrite filter_cons_False by done. simpl. lia.
Qed.

Lemma X13_at_most_15_admitted_per_window_witness :
  let ts := (λ i, 1000 * Z.of_nat i) <$> seq 0 40 in
  length (admitted_times ∅ "::1" "/stats" ts) = 15%nat ∧
  (length (filter (λ u, (u ≤ 39000 ∧ 39000 - u < 60000)%Z)
             (admitted_times ∅ "::1" "/stats" ts))
   ≤ 15)%nat.
Proof.
  intros ts. split; [vm_compute; reflexivity|].
  apply (X13_at_most_15_admitted_per_window ∅ "::1" "/stats" ts 39000).
  repeat constructor; vm_compute; congruence.
Defined.

(** ** [parseInt] stops at the first character that is not a digit *)

(** The decimal text of a positive number starts with a digit from 1 to 9. *)
Lemma pretty_N_go_leading x s :
  (0 < x)%N → ∃ y r, (0 < y < 10)%N ∧ pretty_N_go x s = String (pretty_N_char y) r.
Proof.
  revert s. induction (N.lt_wf_0 x) as [x _ IH]. intros s Hx.
  rewrite pretty_N_go_step by done.
  destruct (decide (x `div` 10 = 0)%N) as [Hq|Hq].
  - rewrite Hq, pretty_N_go_0. exists (x `mod` 10)%N, s. split; [|done].
    pose proof (N.div_mod x 10 ltac:(done)). pose proof (N.mod_lt x 10 ltac:(done)). lia.
  - apply IH; [by apply N.div_lt | by apply N.neq_0_lt_0].
Qed.

Lemma mathInt_leading y r :
  (0 < y < 10)%N →
  mathInt (JStr (String (pretty_N_char y) r)) =
  parse_digits 10 (String (pretty_N_char y) r) None.
Proof.
  intros Hy.
  assert (y = 1 ∨ y = 2 ∨ y = 3 ∨ y = 4 ∨ y = 5 ∨ y = 6 ∨ y = 7 ∨ y = 8 ∨ y = 9)%N
    as Hcases by lia.
  repeat (destruct Hcases as [->|Hcases];
          [unfold mathInt; simpl;
           match goal with |- context [parse_digits 10 r ?acc] =>
             destruct (parse_digits 10 r acc) as [n|]; [by destruct n | done] end|]).
  subst y. unfold mathInt. simpl.
  match goal with |- context [parse_digits 10 r ?acc] =>
    destruct (parse_digits 10 r acc) as [n|]; [by destruct n | done] end.
Qed.

(** X14.  A textual [proxyPort] that begins with a positive integer below
    2^53 is accepted with whatever follows the digits, and the match is stored
    with the leading integer alone: [parseInt] stops at the first character
    that is not a decimal digit. *)
Theorem X14_port_text_truncated_to_leading_integer ms b uuid t1 t2 p c rest :
  nonblank_text (body_hostName b) → nonblank_text (body_proxyAddress b) →
  nonblank_text (body_map b) →
  body_proxyPort b = JStr (pretty (Z.pos p) +:+ String c rest) →
  radix_digit 10 c = None →
  Z.pos p < 2 ^ 53 →
  Success (register_handler ms b uuid t1 t2).2 ∧
  ∃ m, Map_get (register_handler ms b uuid t1 t2).1 uuid = Some m ∧
       m_proxyPort m = Num (Z.pos p).
Proof.
  intros Hh Ha Hm Hport Hc Hp.
  assert (∀ s1 s2, pretty_N_go (N.pos p) s1 +:+ s2 = pretty_N_go (N.pos p) (s1 +:+ s2))
    as Happ.
  { generalize (N.pos p). intros x. induction (N.lt_wf_0 x) as [x _ IH]. intros s1 s2.
    destruct (decide (0 < x)%N) as [Hx|Hx].
    - rewrite (pretty_N_go_step x s1), (pretty_N_go_step x (s1 +:+ s2)) by done.
      by rewrite IH by (by apply N.div_lt).
    - replace x with 0%N by lia. by rewrite !pretty_N_go_0. }
  assert (body_proxyPort b = JStr (pretty_N_go (N.pos p) (String c rest))) as Hport'.
  { rewrite Hport. change (pretty (Z.pos p)) with (pretty_N_go (N.pos p) "").
    by rewrite Happ. }
  destruct (pretty_N_go_leading (N.pos p) (String c rest)) as (y & r & Hy & Heq); [done|].
  assert (Success (register_handler ms b uuid t1 t2).2) as Hok.
  { apply register_handler_Success_iff. split_and!; try done.
    rewrite Hport', Heq. by apply truthy_JStr. }
  split; [done|]. apply register_handler_Success in Hok as [m Hreg].
  rewrite (register_handler_ok _ _ _ _ _ _ Hreg). simpl.
  exists m. split; [apply Map_get_set_eq|].
  apply register_match_Some in Hreg as (h & a & q & _ & _ & _ & _ & _ & _ & _ & ->).
  simpl. apply parseInt_safe; [|lia].
  rewrite Hport', Heq, (mathInt_leading y r Hy), <- Heq.
  rewrite parse_digits_pretty_N_go by done. simpl. by rewrite Hc.
Qed.

Lemma X14_port_text_truncated_to_leading_integer_witness :
  Success (register_handler [] (with_proxyPort (JStr "8080/tcp") alice)
             uuid_a 1000 1000).2 ∧
  ∃ m, Map_get (register_handler [] (with_proxyPort (JStr "8080/tcp") alice)
                  uuid_a 1000 1000).1 uuid_a = Some m ∧
       m_proxyPort m = Num 8080.
Proof.
  assert (∀ s c t, s = String c t → isWhiteSpace c = false → nonblank_text (JStr s))
    as Htext.
  { intros s c t -> Hc. exists (String c t). split; [reflexivity|].
    apply Exists_cons_hd. exact Hc. }
  apply (X14_port_text_truncated_to_leading_integer [] _ uuid_a 1000 1000
           8080 "/" "tcp"); try reflexivity; eapply Htext; reflexivity.
Defined.
